(** * datadog-operator: remote-config client and agent profiles

    A shallow embedding of [pkg/config/remote/client.go] (module [Remote])
    and of the agent-profile selection of package [agentprofile] (module
    [AgentProfile]), with the properties proved about them.

    Go values are modelled as follows: [string] is a Rocq [string],
    [[]byte] a [list Byte.byte], a sized integer a [Z] with the
    conversion's wrap-around written out, a [map[string]T] a
    [gmap string T], a slice a [list], an [error] value an [error]
    carrying its message, and a panic an [outcome] constructor. *)

From Stdlib Require Import ZArith Lia Ascii String.
From Stdlib Require Import Strings.Byte.
From stdpp Require Import gmap strings list fin_maps sorting.

Local Open Scope string_scope.
Local Open Scope list_scope.
Local Open Scope Z_scope.

(** ** Go runtime notions shared by both packages *)

Module Go.

(** [error]: an interface value whose only observable part is [Error()]. *)
Record error : Type := mkError { Error : string }.

#[global] Instance error_eq_dec : EqDecision error.
Proof. solve_decision. Defined.

(** [(T, error)] results: exactly one side is meaningful. *)
Inductive Result (A : Type) : Type :=
| Ok (a : A)
| Err (e : error).
Arguments Ok {A} a.
Arguments Err {A} e.

(** A call either returns or panics. *)
Inductive outcome (A : Type) : Type :=
| Returned (a : A)
| Panicked (msg : string).
Arguments Returned {A} a.
Arguments Panicked {A} msg.

Definition byte_to_Z (b : Byte.byte) : Z := Z.of_N (Byte.to_N b).

(** Integer conversions [uint64(x)] and [int64(x)]. *)
Definition uint64 (x : Z) : Z := x mod 2 ^ 64.
Definition int64 (x : Z) : Z := (x + 2 ^ 63) mod 2 ^ 64 - 2 ^ 63.

(** [time.Duration] counts nanoseconds. *)
Definition Nanosecond : Z := 1.
Definition Second : Z := 1000000000 * Nanosecond.

End Go.

Import Go.

(** ** Package [remote]: [pkg/config/remote/client.go] *)

Module Remote.

(** *** [generateID] *)

Definition idSize : nat := 21.

(** [idAlphabet = []rune("_-0123...XYZ")]: every rune is ASCII. *)
Definition idAlphabet : list ascii :=
  list_ascii_of_string
    "_-0123456789abcdefghijklmnopqrstuvwxyzABCDEFGHIJKLMNOPQRSTUVWXYZ".

(** What one call of [crypto/rand.Read] does: it writes [rr_written] over
    the front of the caller's buffer and reports [rr_err]. *)
Record RandRead : Type := mkRandRead {
  rr_written : list Byte.byte;
  rr_err : option error
}.

(** [rand.Read(buf)]: the buffer keeps its length whatever is written. *)
Definition rand_Read (r : RandRead) (buf : list Byte.byte)
  : list Byte.byte * option error :=
  (take (length buf) (rr_written r ++ drop (length (rr_written r)) buf),
   rr_err r).

(** The body of [for i := 0; i < idSize; i++], over the remaining values
    of [i]. Indexing a slice out of range panics. *)
Fixpoint generateID_loop (idx : list nat) (bytes : list Byte.byte)
  (id : list ascii) : outcome (list ascii) :=
  match idx with
  | [] => Returned id
  | i :: idx' =>
      match bytes !! i with
      | None => Panicked "index out of range"
      | Some b =>
          match idAlphabet !! Z.to_nat (Z.land (byte_to_Z b) 63) with
          | None => Panicked "index out of range"
          | Some r =>
              if decide (i < length id)%nat
              then generateID_loop idx' bytes (<[i := r]> id)
              else Panicked "index out of range"
          end
      end
  end.

Definition generateID (r : RandRead) : outcome string :=
  let bytes := replicate idSize Byte.x00 in
  let '(bytes, err) := rand_Read r bytes in
  match err with
  | Some e => Panicked (Error e)
  | None =>
      let id := replicate idSize Ascii.zero in
      match generateID_loop (seq 0 idSize) bytes id with
      | Panicked msg => Panicked msg
      | Returned id => Returned (string_of_list_ascii (take idSize id))
      end
  end.

(** *** [encoding/hex] *)

Definition hextable : list ascii := list_ascii_of_string "0123456789abcdef".

Definition hex_digit (n : Z) : ascii := nth (Z.to_nat n) hextable Ascii.zero.

(** [hex.EncodeToString]: two lower-case digits per byte, high nibble first. *)
Fixpoint EncodeToString (src : list Byte.byte) : string :=
  match src with
  | [] => EmptyString
  | v :: src' =>
      String (hex_digit (Z.shiftr (byte_to_Z v) 4))
        (String (hex_digit (Z.land (byte_to_Z v) 15)) (EncodeToString src'))
  end.

(** *** Package [pbgo]: the messages exchanged with the service *)

Module TargetFileHash.
Record t : Type := mk { Algorithm : string; Hash : string }.
End TargetFileHash.

Module TargetFileMeta.
Record t : Type := mk {
  Path : string;
  Length : Z;                       (* int64 *)
  Hashes : list TargetFileHash.t
}.
End TargetFileMeta.

Module PbConfigState.
Record t : Type := mk {
  Id : string;
  Version : Z;                      (* uint64 *)
  Product : string
}.
End PbConfigState.

Module ClientState.
Record t : Type := mk {
  RootVersion : Z;                  (* uint64 *)
  TargetsVersion : Z;               (* uint64 *)
  ConfigStates : list PbConfigState.t;
  HasError : bool;
  Error : string;
  BackendClientState : list Byte.byte
}.
End ClientState.

Module ClientAgent.
Record t : Type := mk {
  Name : string;
  Version : string;
  ClusterName : string;
  ClusterId : string;
  CwsWorkloads : list string
}.
End ClientAgent.

Module PbClient.
Record t : Type := mk {
  State : ClientState.t;
  Id : string;
  Products : list string;
  IsAgent : bool;
  IsTracer : bool;
  ClientAgent : ClientAgent.t
}.
End PbClient.

Module ClientGetConfigsRequest.
Record t : Type := mk {
  Client : PbClient.t;
  CachedTargetFiles : list TargetFileMeta.t
}.
End ClientGetConfigsRequest.

Module File.
Record t : Type := mk { Path : string; Raw : list Byte.byte }.
End File.

(** [TargetFiles] is [None] for a nil slice: Go tells it from an empty one. *)
Module ClientGetConfigsResponse.
Record t : Type := mk {
  Roots : list (list Byte.byte);
  Targets : list Byte.byte;
  TargetFiles : option (list File.t);
  ClientConfigs : list string
}.
End ClientGetConfigsResponse.

(** *** Package [state]: what the client uses of the repository

    The record types are the ones [newUpdateRequest] and [applyUpdate]
    read and build field by field. The repository keeps TUF versions as
    [int64] and file lengths as [uint64], which is why
    [newUpdateRequest] converts them ([uint64(state.RootsVersion)],
    [int64(f.Length)]) for the protobuf fields. *)

Module ConfigState.
Record t : Type := mk {
  Product : string;
  ID : string;
  Version : Z                       (* uint64 *)
}.
End ConfigState.

Module CachedFile.
Record t : Type := mk {
  Path : string;
  Length : Z;                       (* uint64 *)
  Hashes : gmap string (list Byte.byte)
}.
End CachedFile.

Module RepositoryState.
Record t : Type := mk {
  Configs : list ConfigState.t;
  CachedFiles : list CachedFile.t;
  TargetsVersion : Z;               (* int64 *)
  RootsVersion : Z;                 (* int64 *)
  OpaqueBackendState : list Byte.byte
}.
End RepositoryState.

Module Update.
Record t : Type := mk {
  TUFRoots : list (list Byte.byte);
  TUFTargets : list Byte.byte;
  TargetFiles : gmap string (list Byte.byte);
  ClientConfigs : list string
}.
End Update.

(** The methods of [*state.Repository] the client calls. [CurrentState]
    and [DebugConfigs] are queries; [Update] changes the repository and
    reports the products whose configs changed. *)
Class RepositoryAPI (Repository DebugConfigs : Type) : Type := {
  NewRepository : list Byte.byte → Result Repository;
  NewUnverifiedRepository : Result Repository;
  CurrentState : Repository → Result RepositoryState.t;
  StateUpdate : Repository → Update.t → Repository * Result (list string);
  GetDebugConfigs : Repository → DebugConfigs
}.

(** [ConfigUpdater]: the interface the client polls through. The
    implementation may keep state of its own between calls. *)
Class ConfigUpdater (Updater : Type) : Type := {
  ClientGetConfigs :
    Updater → ClientGetConfigsRequest.t →
    Updater * Result ClientGetConfigsResponse.t
}.

(** *** The client *)

Inductive LogMsg : Type :=
| LogPollLoop                          (* "client poll loop" *)
| LogProducts (changed : list string)  (* "products %+v" *)
| LogPushing (n : nat).                (* "pushing to %d listeners" *)

(** The two cases of the [select] in [pollLoop]. *)
Inductive SelectCase : Type :=
| CtxDone
| TimerFired.

Section Client.

Context {Repository DebugConfigs Updater Listener : Type}.
Context `{!RepositoryAPI Repository DebugConfigs} `{!ConfigUpdater Updater}.

(** [state.ProductDebug], a constant of package [state]. *)
Variable ProductDebug : string.

(** [meta.RootsDirector().Last()], the embedded director root. *)
Variable RootsDirectorLast : list Byte.byte.

(** What a method does besides changing the client's fields, in program
    order. [AReadListeners] and [AAppendListener] are the accesses to
    [c.debugListeners]; [ALock] and [AUnlock] act on [c.m];
    [ASelect d received] is the [select] of [pollLoop] over [c.ctx.Done()]
    and [time.After(d)], with the case that was received; [AGo] is
    [go c.pollLoop()] and [ACancel] is [c.close()]. *)
Inductive Action : Type :=
| ALock
| AUnlock
| AReadListeners
| AAppendListener (fn : Listener)
| ACallListener (fn : Listener) (update : DebugConfigs)
| AGetConfigs (req : ClientGetConfigsRequest.t)
| AStateUpdate (u : Update.t)
| ALog (msg : LogMsg)
| ASelect (d : Z) (received : SelectCase)
| AStoreLastError (e : option error)
| AGo
| ACancel.

(** The [Client] struct. [startupSync] holds the [sync.Once]'s done flag
    and [cancelled] whether [ctx] is done ([close] sets it). The mutex
    [m] has no field here: who holds it belongs to the configuration of
    the interleaving semantics below, and the methods record [ALock] and
    [AUnlock]. *)
Record Client : Type := mkClient {
  ID : string;
  startupSync : bool;
  cancelled : bool;
  agentName : string;
  agentVersion : string;
  products : list string;
  clusterName : string;
  clusterID : string;
  cwsWorkloads : list string;
  pollInterval : Z;
  lastUpdateError : option error;
  updater : Updater;
  state : Repository;
  debugListeners : list Listener
}.

Definition set_startupSync (c : Client) (b : bool) : Client :=
  mkClient (ID c) b (cancelled c) (agentName c) (agentVersion c)
    (products c) (clusterName c) (clusterID c) (cwsWorkloads c)
    (pollInterval c) (lastUpdateError c) (updater c) (state c)
    (debugListeners c).

Definition set_cancelled (c : Client) (b : bool) : Client :=
  mkClient (ID c) (startupSync c) b (agentName c) (agentVersion c)
    (products c) (clusterName c) (clusterID c) (cwsWorkloads c)
    (pollInterval c) (lastUpdateError c) (updater c) (state c)
    (debugListeners c).

Definition set_agentVersion (c : Client) (v : string) : Client :=
  mkClient (ID c) (startupSync c) (cancelled c) (agentName c) v
    (products c) (clusterName c) (clusterID c) (cwsWorkloads c)
    (pollInterval c) (lastUpdateError c) (updater c) (state c)
    (debugListeners c).

Definition set_pollInterval (c : Client) (d : Z) : Client :=
  mkClient (ID c) (startupSync c) (cancelled c) (agentName c)
    (agentVersion c) (products c) (clusterName c) (clusterID c)
    (cwsWorkloads c) d (lastUpdateError c) (updater c) (state c)
    (debugListeners c).

Definition set_lastUpdateError (c : Client) (e : option error) : Client :=
  mkClient (ID c) (startupSync c) (cancelled c) (agentName c)
    (agentVersion c) (products c) (clusterName c) (clusterID c)
    (cwsWorkloads c) (pollInterval c) e (updater c) (state c)
    (debugListeners c).

Definition set_updater (c : Client) (u : Updater) : Client :=
  mkClient (ID c) (startupSync c) (cancelled c) (agentName c)
    (agentVersion c) (products c) (clusterName c) (clusterID c)
    (cwsWorkloads c) (pollInterval c) (lastUpdateError c) u (state c)
    (debugListeners c).

Definition set_state (c : Client) (r : Repository) : Client :=
  mkClient (ID c) (startupSync c) (cancelled c) (agentName c)
    (agentVersion c) (products c) (clusterName c) (clusterID c)
    (cwsWorkloads c) (pollInterval c) (lastUpdateError c) (updater c) r
    (debugListeners c).

Definition set_debugListeners (c : Client) (l : list Listener) : Client :=
  mkClient (ID c) (startupSync c) (cancelled c) (agentName c)
    (agentVersion c) (products c) (clusterName c) (clusterID c)
    (cwsWorkloads c) (pollInterval c) (lastUpdateError c) (updater c)
    (state c) l.

(** [data.ProductListToString]: [data.Product] is a string type. *)
Definition ProductListToString (ps : list string) : list string :=
  map (λ p, p) ps.

(** [newClient]. The random bytes [generateID] draws are the argument
    [rnd]; a failing [rand.Read] makes the call panic. *)
Definition newClient (rnd : RandRead) (agentName : string) (updater : Updater)
  (doTufVerification : bool) (agentVersion : string) (products : list string)
  (pollInterval : Z) : outcome (Result Client) :=
  let r :=
    if doTufVerification then NewRepository RootsDirectorLast
    else NewUnverifiedRepository in
  match r with
  | Err err => Returned (Err err)
  | Ok repository =>
      let clusterName := "" in
      let clusterID := "" in
      match generateID rnd with
      | Panicked msg => Panicked msg
      | Returned id =>
          Returned (Ok {|
            ID := id;
            startupSync := false;
            cancelled := false;
            agentName := agentName;
            agentVersion := agentVersion;
            clusterName := clusterName;
            clusterID := clusterID;
            cwsWorkloads := [];
            products := ProductListToString products;
            state := repository;
            pollInterval := pollInterval;
            lastUpdateError := None;
            debugListeners := [];
            updater := updater
          |})
      end
  end.

Definition NewClient (rnd : RandRead) (agentName : string) (updater : Updater)
  (agentVersion : string) (products : list string) (pollInterval : Z)
  : outcome (Result Client) :=
  newClient rnd agentName updater true agentVersion products pollInterval.

(** [containsProduct] *)
Fixpoint containsProduct (products : list string) (product : string) : bool :=
  match products with
  | [] => false
  | p :: products' =>
      if decide (product = p) then true else containsProduct products' product
  end.

(** The inner loop of [newUpdateRequest] over [f.Hashes]. Go ranges over
    a map in an unspecified order; [map_to_list] fixes one, and nothing
    proved below depends on which. *)
Definition pbHashes_of (hashes : gmap string (list Byte.byte))
  : list TargetFileHash.t :=
  map (λ '(alg, hash), TargetFileHash.mk alg (EncodeToString hash))
      (map_to_list hashes).

Definition pbCachedFile_of (f : CachedFile.t) : TargetFileMeta.t :=
  {| TargetFileMeta.Path := CachedFile.Path f;
     TargetFileMeta.Length := int64 (CachedFile.Length f);
     TargetFileMeta.Hashes := pbHashes_of (CachedFile.Hashes f) |}.

Definition pbConfigState_of (f : ConfigState.t) : PbConfigState.t :=
  {| PbConfigState.Id := ConfigState.ID f;
     PbConfigState.Version := ConfigState.Version f;
     PbConfigState.Product := ConfigState.Product f |}.

(** [Client.newUpdateRequest] *)
Definition newUpdateRequest (c : Client) : Result ClientGetConfigsRequest.t :=
  match CurrentState (state c) with
  | Err err => Err err
  | Ok st =>
      let pbCachedFiles := map pbCachedFile_of (RepositoryState.CachedFiles st) in
      let hasError := bool_decide (lastUpdateError c ≠ None) in
      let errMsg :=
        if hasError
        then match lastUpdateError c with Some e => Error e | None => "" end
        else "" in
      let pbConfigState := map pbConfigState_of (RepositoryState.Configs st) in
      Ok {|
        ClientGetConfigsRequest.Client := {|
          PbClient.State := {|
            ClientState.RootVersion := uint64 (RepositoryState.RootsVersion st);
            ClientState.TargetsVersion :=
              uint64 (RepositoryState.TargetsVersion st);
            ClientState.ConfigStates := pbConfigState;
            ClientState.HasError := hasError;
            ClientState.Error := errMsg;
            ClientState.BackendClientState :=
              RepositoryState.OpaqueBackendState st
          |};
          PbClient.Id := ID c;
          PbClient.Products := products c;
          PbClient.IsAgent := true;
          PbClient.IsTracer := false;
          PbClient.ClientAgent := {|
            ClientAgent.Name := agentName c;
            ClientAgent.Version := "9.9.9";
            ClientAgent.ClusterName := clusterName c;
            ClientAgent.ClusterId := clusterID c;
            ClientAgent.CwsWorkloads := cwsWorkloads c
          |}
        |};
        ClientGetConfigsRequest.CachedTargetFiles := pbCachedFiles
      |}
  end.

(** The [fileMap] of [applyUpdate]: a later file of the same path
    overwrites an earlier one. *)
Definition fileMap_of (files : list File.t) : gmap string (list Byte.byte) :=
  foldl (λ m f, <[File.Path f := File.Raw f]> m) ∅ files.

(** [Client.applyUpdate]. Ranging over a nil [TargetFiles] is ranging
    over no file. *)
Definition applyUpdate (c : Client) (pbUpdate : ClientGetConfigsResponse.t)
  : Client * list Action * Result (list string) :=
  let fileMap :=
    fileMap_of (default [] (ClientGetConfigsResponse.TargetFiles pbUpdate)) in
  let update := {|
    Update.TUFRoots := ClientGetConfigsResponse.Roots pbUpdate;
    Update.TUFTargets := ClientGetConfigsResponse.Targets pbUpdate;
    Update.TargetFiles := fileMap;
    Update.ClientConfigs := ClientGetConfigsResponse.ClientConfigs pbUpdate
  |} in
  let '(repo, res) := StateUpdate (state c) update in
  (set_state c repo, [AStateUpdate update], res).

(** The part of [update] that runs between [c.m.Lock()] and the deferred
    [c.m.Unlock()]. *)
Definition notify (c : Client) (changedProducts : list string) : list Action :=
  [ALock; ALog (LogProducts changedProducts)] ++
  (if containsProduct changedProducts ProductDebug then
     [AReadListeners; ALog (LogPushing (length (debugListeners c)));
      AReadListeners] ++
     map (λ listener, ACallListener listener (GetDebugConfigs (state c)))
         (debugListeners c)
   else []) ++
  [AUnlock].

(** [Client.update]: the client after the call, what the call did, and
    the error it returns ([None] for nil). *)
Definition update (c : Client) : Client * list Action * option error :=
  match newUpdateRequest c with
  | Err err => (c, [], Some err)
  | Ok req =>
      let '(upd, res) := ClientGetConfigs (updater c) req in
      let c := set_updater c upd in
      match res with
      | Err err => (c, [AGetConfigs req], Some err)
      | Ok response =>
          match ClientGetConfigsResponse.TargetFiles response with
          | None => (c, [AGetConfigs req], None)
          | Some _ =>
              let '(c, applied, res) := applyUpdate c response in
              match res with
              | Err err => (c, AGetConfigs req :: applied, Some err)
              | Ok changedProducts =>
                  if decide (length changedProducts = 0%nat)
                  then (c, AGetConfigs req :: applied, None)
                  else (c, AGetConfigs req :: applied ++ notify c changedProducts,
                        None)
              end
          end
      end
  end.

(** [Client.RegisterDebug] *)
Definition RegisterDebug (fn : Listener) (c : Client) : Client * list Action :=
  (set_debugListeners c (debugListeners c ++ [fn]),
   [ALock; AReadListeners; AAppendListener fn;
    ACallListener fn (GetDebugConfigs (state c)); AUnlock]).

(** [Client.startFn]: [go c.pollLoop()]. *)
Definition startFn (c : Client) : Client * list Action := (c, [AGo]).

(** [Client.Start]: [c.startupSync.Do(c.startFn)]. [sync.Once.Do] runs
    the function and sets the flag only when the flag is not yet set. *)
Definition Start (c : Client) : Client * list Action :=
  if startupSync c then (c, [])
  else let '(c, acts) := startFn c in (set_startupSync c true, acts).

(** [Client.Close]: [c.close()] cancels [c.ctx]. *)
Definition Close (c : Client) : Client * list Action :=
  (set_cancelled c true, [ACancel]).

(** [Client.pollLoop]. [env] says, for each [select] the loop reaches
    while its context is not yet done, which case is received: [CtxDone]
    when [Close] is called during the wait, [TimerFired] when the timer
    of [time.After] fires first. A context that is already done is
    received at once. The last component tells whether the loop has
    returned; it is [false] when [env] ends with the loop still going. *)
Fixpoint pollLoop (env : list SelectCase) (c : Client)
  : Client * list Action * bool :=
  match env with
  | [] => (c, [], false)
  | choice :: env' =>
      match (if cancelled c then CtxDone else choice) with
      | CtxDone =>
          (set_cancelled c true,
           [ALog LogPollLoop; ASelect (Second * 5) CtxDone], true)
      | TimerFired =>
          let '(c, acts, err) := update c in
          let c := set_lastUpdateError c err in
          let '(c, rest, returned) := pollLoop env' c in
          (c,
           [ALog LogPollLoop; ASelect (Second * 5) TimerFired] ++
           acts ++ [AStoreLastError err] ++ rest,
           returned)
      end
  end.

(** A caller's use of the client's exported methods, one call after the
    other. *)
Inductive Call : Type :=
| CallStart
| CallClose
| CallRegisterDebug (fn : Listener).

Definition call (k : Call) (c : Client) : Client * list Action :=
  match k with
  | CallStart => Start c
  | CallClose => Close c
  | CallRegisterDebug fn => RegisterDebug fn c
  end.

Fixpoint calls (ks : list Call) (c : Client) : Client * list Action :=
  match ks with
  | [] => (c, [])
  | k :: ks' =>
      let '(c, acts) := call k c in
      let '(c, rest) := calls ks' c in
      (c, acts ++ rest)
  end.

(** The listener invocations among the actions of a call, in order. *)
Definition listener_calls (acts : list Action) : list (Listener * DebugConfigs) :=
  omap (λ a, match a with
             | ACallListener fn update => Some (fn, update)
             | _ => None
             end) acts.

(** The [state.Update] value [applyUpdate] builds from a response. *)
Definition response_update (pbUpdate : ClientGetConfigsResponse.t) : Update.t :=
  {| Update.TUFRoots := ClientGetConfigsResponse.Roots pbUpdate;
     Update.TUFTargets := ClientGetConfigsResponse.Targets pbUpdate;
     Update.TargetFiles :=
       fileMap_of (default [] (ClientGetConfigsResponse.TargetFiles pbUpdate));
     Update.ClientConfigs := ClientGetConfigsResponse.ClientConfigs pbUpdate |}.

(** The three steps of [update] that can fail, each with the error it
    fails with: building the request, the updater's call, applying the
    update to the repository. *)
Inductive failing_step (c : Client) (err : error) : Prop :=
| fails_request :
    newUpdateRequest c = Err err → failing_step c err
| fails_get_configs req upd :
    newUpdateRequest c = Ok req →
    ClientGetConfigs (updater c) req = (upd, Err err) →
    failing_step c err
| fails_apply req upd response files repo :
    newUpdateRequest c = Ok req →
    ClientGetConfigs (updater c) req = (upd, Ok response) →
    ClientGetConfigsResponse.TargetFiles response = Some files →
    StateUpdate (state c) (response_update response) = (repo, Err err) →
    failing_step c err.

(** Applying the server's response reports [ProductDebug] among the
    changed products: the request is built and answered, the answer
    carries target files, and [state.Update] returns a list that has
    [ProductDebug] in it. *)
Inductive debug_changed (c : Client) : Prop :=
| debug_changed_intro req upd response files repo changed :
    newUpdateRequest c = Ok req →
    ClientGetConfigs (updater c) req = (upd, Ok response) →
    ClientGetConfigsResponse.TargetFiles response = Some files →
    StateUpdate (state c) (response_update response) = (repo, Ok changed) →
    ProductDebug ∈ changed →
    debug_changed c.

Definition is_GetConfigs (a : Action) : bool :=
  match a with AGetConfigs _ => true | _ => false end.

Definition is_StateUpdate (a : Action) : bool :=
  match a with AStateUpdate _ => true | _ => false end.

(** *** The mutex [c.m] and the goroutines that use the client

    Each goroutine runs the actions of a method call, one action per
    step, in any interleaving. [ALock] can be taken only while nobody
    holds the mutex; [AUnlock] releases it, whoever took it. *)

Definition accesses_listeners (a : Action) : bool :=
  match a with
  | AReadListeners | AAppendListener _ => true
  | _ => false
  end.

Definition writes_listeners (a : Action) : bool :=
  match a with
  | AAppendListener _ => true
  | _ => false
  end.

(** The actions the methods perform on the listeners: reading or writing
    the list, and invoking a listener. *)
Definition needs_mutex (a : Action) : bool :=
  match a with
  | AReadListeners | AAppendListener _ | ACallListener _ _ => true
  | _ => false
  end.

(** [under_mutex held acts]: running [acts] with the mutex held or not at
    the start, every action on the listeners happens while this
    goroutine holds the mutex, the mutex is never taken twice or
    released without being held, and it is released at the end. *)
Fixpoint under_mutex (held : bool) (acts : list Action) : bool :=
  match acts with
  | [] => negb held
  | ALock :: rest => negb held && under_mutex true rest
  | AUnlock :: rest => held && under_mutex false rest
  | a :: rest => (if needs_mutex a then held else true) && under_mutex held rest
  end.

Record Config : Type := mkConfig {
  holder : option nat;
  threads : list (list Action)
}.

Inductive step : Config → Config → Prop :=
| step_lock cfg i rest :
    threads cfg !! i = Some (ALock :: rest) →
    holder cfg = None →
    step cfg (mkConfig (Some i) (<[i := rest]> (threads cfg)))
| step_unlock cfg i rest :
    threads cfg !! i = Some (AUnlock :: rest) →
    holder cfg ≠ None →
    step cfg (mkConfig None (<[i := rest]> (threads cfg)))
| step_action cfg i a rest :
    threads cfg !! i = Some (a :: rest) →
    a ≠ ALock → a ≠ AUnlock →
    step cfg (mkConfig (holder cfg) (<[i := rest]> (threads cfg))).

(** Two goroutines are about to access the listener list at once, one of
    them writing. *)
Definition race (cfg : Config) : Prop :=
  ∃ i j a b ri rj,
    i ≠ j ∧
    threads cfg !! i = Some (a :: ri) ∧
    threads cfg !! j = Some (b :: rj) ∧
    accesses_listeners a = true ∧ accesses_listeners b = true ∧
    (writes_listeners a = true ∨ writes_listeners b = true).

(** What a goroutine using the client runs: a registration, one update,
    or the poll loop. *)
Inductive client_thread : list Action → Prop :=
| thread_RegisterDebug fn c : client_thread (RegisterDebug fn c).2
| thread_update c : client_thread (update c).1.2
| thread_pollLoop env c : client_thread (pollLoop env c).1.2.

Definition is_Go (a : Action) : bool :=
  match a with AGo => true | _ => false end.

Definition is_StoreLastError (a : Action) : bool :=
  match a with AStoreLastError _ => true | _ => false end.

Definition is_TimerFired (a : Action) : bool :=
  match a with ASelect _ TimerFired => true | _ => false end.

(** The shape of what the poll loop does: one [select] with its timer per
    round, and after every timer that fires one [update] whose result is
    stored in [c.lastUpdateError]. *)
Inductive poll_trace : list Action → Prop :=
| poll_running : poll_trace []
| poll_returned : poll_trace [ALog LogPollLoop; ASelect (5 * Second) CtxDone]
| poll_round c rest :
    poll_trace rest →
    poll_trace ([ALog LogPollLoop; ASelect (5 * Second) TimerFired] ++
                (update c).1.2 ++ [AStoreLastError (update c).2] ++ rest).


(** *** Properties of [update] *)

Lemma containsProduct_elem_of (ps : list string) (p : string) :
  containsProduct ps p = true ↔ p ∈ ps.
Proof.
  induction ps as [|q ps IH]; simpl.
  - split; [done | intros H; by apply elem_of_nil in H].
  - destruct (decide (p = q)) as [->|Hne].
    + split; [intros _; left | done].
    + rewrite IH. split; [by right|].
      intros [?|?]%elem_of_cons; done.
Qed.

Lemma applyUpdate_StateUpdate (c : Client) (response : ClientGetConfigsResponse.t) :
  applyUpdate c response =
  (set_state c (StateUpdate (state c) (response_update response)).1,
   [AStateUpdate (response_update response)],
   (StateUpdate (state c) (response_update response)).2).
Proof.
  unfold applyUpdate. fold (response_update response).
  by destruct (StateUpdate (state c) (response_update response)).
Qed.

Lemma listener_calls_app (a b : list Action) :
  listener_calls (a ++ b) = listener_calls a ++ listener_calls b.
Proof. apply omap_app. Qed.

Lemma listener_calls_map_call (ls : list Listener) (u : DebugConfigs) :
  listener_calls (map (λ fn, ACallListener fn u) ls) = map (λ fn, (fn, u)) ls.
Proof. induction ls as [|fn ls IH]; simpl; [done|]. by f_equal. Qed.

Lemma listener_calls_notify (c : Client) (changed : list string) :
  listener_calls (notify c changed) =
  if containsProduct changed ProductDebug
  then map (λ fn, (fn, GetDebugConfigs (state c))) (debugListeners c)
  else [].
Proof.
  unfold notify. destruct (containsProduct changed ProductDebug).
  - rewrite !listener_calls_app. cbn -[listener_calls map].
    change (listener_calls [ALock; ALog (LogProducts changed)]) with
      (@nil (Listener * DebugConfigs)).
    change (listener_calls [AUnlock]) with (@nil (Listener * DebugConfigs)).
    rewrite app_nil_l, app_nil_r.
    apply (listener_calls_map_call (debugListeners c)).
  - reflexivity.
Qed.

(** The whole of [update], once the request is built and answered and
    the answer carries target files. *)
Lemma update_applied (c : Client) req upd response files repo res :
  newUpdateRequest c = Ok req →
  ClientGetConfigs (updater c) req = (upd, Ok response) →
  ClientGetConfigsResponse.TargetFiles response = Some files →
  StateUpdate (state c) (response_update response) = (repo, res) →
  update c =
  let c' := set_state (set_updater c upd) repo in
  match res with
  | Err err => (c', [AGetConfigs req; AStateUpdate (response_update response)],
                Some err)
  | Ok changed =>
      if decide (length changed = 0%nat)
      then (c', [AGetConfigs req; AStateUpdate (response_update response)], None)
      else (c', AGetConfigs req :: [AStateUpdate (response_update response)] ++
                  notify c' changed, None)
  end.
Proof.
  intros Hreq Hget Hfiles Hupd. unfold update.
  rewrite Hreq, Hget, Hfiles, applyUpdate_StateUpdate.
  cbn [state set_updater]. rewrite Hupd. cbn [fst snd].
  by destruct res.
Qed.

(** The listener invocations of a cycle whose request is built and
    answered, case by case. *)
Lemma update_listener_calls
  (c : Client) req upd response :
  newUpdateRequest c = Ok req →
  ClientGetConfigs (updater c) req = (upd, Ok response) →
  let invoked := listener_calls (update c).1.2 in
  (ClientGetConfigsResponse.TargetFiles response = None → invoked = []) ∧
  (∀ files repo changed,
     ClientGetConfigsResponse.TargetFiles response = Some files →
     StateUpdate (state c) (response_update response) = (repo, Ok changed) →
     (changed = [] → invoked = []) ∧
     (ProductDebug ∉ changed → invoked = []) ∧
     (ProductDebug ∈ changed →
      invoked = map (λ fn, (fn, GetDebugConfigs repo)) (debugListeners c))).
Proof.
  intros Hreq Hget invoked. subst invoked. split.
  - intros Hnil. unfold update. by rewrite Hreq, Hget, Hnil.
  - intros files repo changed Hfiles Hupd.
    rewrite (update_applied c req upd response files repo (Ok changed))
      by done.
    cbn zeta.
    destruct (decide (length changed = 0%nat)) as [Hlen|Hlen]; cbn [fst snd].
    + apply length_zero_iff_nil in Hlen. subst changed.
      repeat split; try done. intros H. by apply elem_of_nil in H.
    + change (listener_calls
                (AGetConfigs req :: [AStateUpdate (response_update response)] ++
                 notify (set_state (set_updater c upd) repo) changed))
        with (listener_calls (notify (set_state (set_updater c upd) repo) changed)).
      rewrite listener_calls_notify. cbn [state debugListeners set_state set_updater].
      split; [intros ->; done|]. split.
      * intros Hnot. destruct (containsProduct changed ProductDebug) eqn:Hc; [|done].
        by apply containsProduct_elem_of in Hc.
      * intros Hin. apply containsProduct_elem_of in Hin. by rewrite Hin.
Qed.


Lemma update_state_applied (c : Client) req upd response files repo res :
  newUpdateRequest c = Ok req →
  ClientGetConfigs (updater c) req = (upd, Ok response) →
  ClientGetConfigsResponse.TargetFiles response = Some files →
  StateUpdate (state c) (response_update response) = (repo, res) →
  state (update c).1.1 = repo.
Proof.
  intros Hreq Hget Hfiles Hupd.
  rewrite (update_applied c req upd response files repo res) by done.
  cbn zeta. destruct res as [changed|err]; [|done].
  by destruct (decide (length changed = 0%nat)).
Qed.

(** C1. In every poll cycle [update] invokes the debug listeners exactly
    when applying the server's response reports [ProductDebug] among the
    changed products. When it does, every registered listener is invoked
    once, in registration order, with the [DebugConfigs] of the
    repository as the update left it; when it does not, no listener is
    invoked. In particular no listener is invoked when the response's
    [TargetFiles] is nil, when [state.Update] returns no changed product,
    and when the changed products do not include [ProductDebug]. *)
Theorem update_notifies_iff_debug_changed (c : Client) :
  let invoked := listener_calls (update c).1.2 in
  (debug_changed c →
   invoked = map (λ fn, (fn, GetDebugConfigs (state (update c).1.1)))
               (debugListeners c)) ∧
  (¬ debug_changed c → invoked = []) ∧
  (∀ req upd response,
     newUpdateRequest c = Ok req →
     ClientGetConfigs (updater c) req = (upd, Ok response) →
     (ClientGetConfigsResponse.TargetFiles response = None → invoked = []) ∧
     (∀ files repo changed,
        ClientGetConfigsResponse.TargetFiles response = Some files →
        StateUpdate (state c) (response_update response) = (repo, Ok changed) →
        (changed = [] → invoked = []) ∧
        (ProductDebug ∉ changed → invoked = []) ∧
        (ProductDebug ∈ changed →
         invoked = map (λ fn, (fn, GetDebugConfigs repo)) (debugListeners c)))).
Proof.
  cbn zeta. split; [|split].
  - intros [req upd response files repo changed Hreq Hget Hfiles Hupd Hin].
    rewrite (update_state_applied c req upd response files repo (Ok changed))
      by done.
    destruct (update_listener_calls c req upd response Hreq Hget) as [_ H].
    by apply (H files repo changed).
  - intros Hnot. unfold update.
    destruct (newUpdateRequest c) as [req|err] eqn:Hreq; [|done].
    destruct (ClientGetConfigs (updater c) req) as [upd [response|err]] eqn:Hget;
      [|done].
    destruct (update_listener_calls c req upd response Hreq Hget) as [Hnil H].
    unfold update in Hnil, H. rewrite Hreq, Hget in Hnil, H.
    destruct (ClientGetConfigsResponse.TargetFiles response) as [files|] eqn:Hf;
      [|by apply Hnil].
    destruct (StateUpdate (state c) (response_update response))
      as [repo [changed|err]] eqn:Hupd.
    + destruct (H files repo changed eq_refl eq_refl) as (_ & Hno & _).
      apply Hno. intros Hin. apply Hnot. by econstructor.
    + rewrite applyUpdate_StateUpdate. cbn [state set_updater].
      by rewrite Hupd.
  - intros req upd response Hreq Hget.
    apply (update_listener_calls c req upd response Hreq Hget).
Qed.

Lemma update_error_failing_step (c : Client) (err : error) :
  (update c).2 = Some err → failing_step c err.
Proof.
  unfold update.
  destruct (newUpdateRequest c) as [req|e] eqn:Hreq.
  2: { intros [= ->]. by apply fails_request. }
  destruct (ClientGetConfigs (updater c) req) as [upd [response|e]] eqn:Hget.
  2: { intros [= ->]. by eapply fails_get_configs. }
  destruct (ClientGetConfigsResponse.TargetFiles response) as [files|] eqn:Hf;
    [|done].
  rewrite applyUpdate_StateUpdate. cbn [state set_updater].
  destruct (StateUpdate (state c) (response_update response))
    as [repo [changed|e]] eqn:Hupd; cbn [fst snd].
  - by destruct (decide (length changed = 0%nat)).
  - intros [= ->]. by eapply fails_apply.
Qed.

(** C2. When a step of [update] fails (building the request, the
    updater's [ClientGetConfigs], or applying the update to the
    repository), [update] returns the error of that step itself, invokes
    no debug listener, and has called the updater and the repository at
    most once each: nothing is retried. [update] returns an error in no
    other case. *)
Theorem update_passes_error_through (c : Client) (err : error) :
  (failing_step c err ↔ (update c).2 = Some err) ∧
  (failing_step c err →
   listener_calls (update c).1.2 = [] ∧
   (length (List.filter is_GetConfigs (update c).1.2) ≤ 1)%nat ∧
   (length (List.filter is_StateUpdate (update c).1.2) ≤ 1)%nat).
Proof.
  assert (failing_step c err →
          (update c).2 = Some err ∧
          listener_calls (update c).1.2 = [] ∧
          (length (List.filter is_GetConfigs (update c).1.2) ≤ 1)%nat ∧
          (length (List.filter is_StateUpdate (update c).1.2) ≤ 1)%nat) as Hfail.
  { intros [Hreq | req upd Hreq Hget
           | req upd response files repo Hreq Hget Hfiles Hupd].
    - unfold update. rewrite Hreq. cbn. repeat split; first [done | lia].
    - unfold update. rewrite Hreq, Hget. cbn. repeat split; first [done | lia].
    - rewrite (update_applied c req upd response files repo (Err err)) by done.
      cbn. repeat split; first [done | lia]. }
  split.
  - split; [intros H%Hfail; apply H | apply update_error_failing_step].
  - intros H%Hfail. apply H.
Qed.

(** *** Properties of [newUpdateRequest] *)

Lemma uint64_small (x : Z) : 0 ≤ x < 2 ^ 64 → uint64 x = x.
Proof. intros H. unfold uint64. by apply Z.mod_small. Qed.

Lemma int64_small (x : Z) : - 2 ^ 63 ≤ x < 2 ^ 63 → int64 x = x.
Proof. intros H. unfold int64. rewrite Z.mod_small; lia. Qed.

Lemma map_is_fmap {A B} (f : A → B) (l : list A) : map f l = f <$> l.
Proof. induction l as [|x l IH]; simpl; [done|]. by f_equal. Qed.

Lemma pbHashes_of_spec (hashes : gmap string (list Byte.byte)) alg h :
  TargetFileHash.mk alg h ∈ pbHashes_of hashes ↔
  ∃ raw, hashes !! alg = Some raw ∧ h = EncodeToString raw.
Proof.
  unfold pbHashes_of. rewrite map_is_fmap, list_elem_of_fmap. split.
  - intros ([alg' raw] & Heq & Hin). injection Heq as -> ->.
    apply elem_of_map_to_list in Hin. by exists raw.
  - intros (raw & Hl & ->). exists (alg, raw). split; [done|].
    by apply elem_of_map_to_list.
Qed.

Lemma pbHashes_of_length (hashes : gmap string (list Byte.byte)) :
  length (pbHashes_of hashes) = size hashes.
Proof. unfold pbHashes_of. by rewrite length_map, length_map_to_list. Qed.

(** C3, as the code has it. When the repository reports its state,
    [newUpdateRequest] returns a request built from that state and from
    [lastUpdateError]: [RootVersion] and [TargetsVersion] are the state's
    signed versions converted to [uint64], hence equal to them when these
    are not negative; [ConfigStates] has one entry per config, in order,
    with its ID, version and product; [CachedTargetFiles] has one entry
    per cached file, in order, with its path, its length converted to
    [int64] (the same number below 2^63) and one entry per hash, holding
    the algorithm and the hex encoding of the hash; [HasError] is set
    exactly when [lastUpdateError] is not nil, and [Error] is then that
    error's message and is empty otherwise. *)
Theorem newUpdateRequest_from_state (c : Client) (st : RepositoryState.t) :
  CurrentState (state c) = Ok st →
  ∃ req,
    newUpdateRequest c = Ok req ∧
    let cs := PbClient.State (ClientGetConfigsRequest.Client req) in
    ClientState.RootVersion cs = uint64 (RepositoryState.RootsVersion st) ∧
    ClientState.TargetsVersion cs = uint64 (RepositoryState.TargetsVersion st) ∧
    (0 ≤ RepositoryState.RootsVersion st < 2 ^ 63 →
     ClientState.RootVersion cs = RepositoryState.RootsVersion st) ∧
    (0 ≤ RepositoryState.TargetsVersion st < 2 ^ 63 →
     ClientState.TargetsVersion cs = RepositoryState.TargetsVersion st) ∧
    ClientState.BackendClientState cs = RepositoryState.OpaqueBackendState st ∧
    length (ClientState.ConfigStates cs) = length (RepositoryState.Configs st) ∧
    (∀ i f, RepositoryState.Configs st !! i = Some f →
       ∃ e, ClientState.ConfigStates cs !! i = Some e ∧
            PbConfigState.Id e = ConfigState.ID f ∧
            PbConfigState.Version e = ConfigState.Version f ∧
            PbConfigState.Product e = ConfigState.Product f) ∧
    length (ClientGetConfigsRequest.CachedTargetFiles req) =
      length (RepositoryState.CachedFiles st) ∧
    (∀ i f, RepositoryState.CachedFiles st !! i = Some f →
       ∃ m, ClientGetConfigsRequest.CachedTargetFiles req !! i = Some m ∧
            TargetFileMeta.Path m = CachedFile.Path f ∧
            TargetFileMeta.Length m = int64 (CachedFile.Length f) ∧
            (0 ≤ CachedFile.Length f < 2 ^ 63 →
             TargetFileMeta.Length m = CachedFile.Length f) ∧
            length (TargetFileMeta.Hashes m) = size (CachedFile.Hashes f) ∧
            (∀ alg h,
               TargetFileHash.mk alg h ∈ TargetFileMeta.Hashes m ↔
               ∃ raw, CachedFile.Hashes f !! alg = Some raw ∧
                      h = EncodeToString raw)) ∧
    (ClientState.HasError cs = true ↔ lastUpdateError c ≠ None) ∧
    (∀ e, lastUpdateError c = Some e → ClientState.Error cs = Error e) ∧
    (lastUpdateError c = None → ClientState.Error cs = "").
Proof.
  intros Hst. unfold newUpdateRequest. rewrite Hst.
  eexists. split; [reflexivity|]. cbn.
  split; [done|]. split; [done|].
  split. { intros H. apply uint64_small. lia. }
  split. { intros H. apply uint64_small. lia. }
  split; [done|].
  split. { by rewrite length_map. }
  split.
  { intros i f Hf. exists (pbConfigState_of f). split; [|done].
    rewrite map_is_fmap, list_lookup_fmap, Hf. done. }
  split. { by rewrite length_map. }
  split.
  { intros i f Hf. exists (pbCachedFile_of f). split.
    { rewrite map_is_fmap, list_lookup_fmap, Hf. done. }
    cbn. split; [done|]. split; [done|].
    split. { intros H. apply int64_small. lia. }
    split. { apply pbHashes_of_length. }
    intros alg h. apply pbHashes_of_spec. }
  split. { apply bool_decide_eq_true. }
  split.
  - intros e He. rewrite He. by rewrite bool_decide_true.
  - intros He. rewrite He. by rewrite bool_decide_false by (intros H; by apply H).
Qed.

(** *** The fields no request depends on *)

Definition set_meta (c : Client) (version : string) (interval : Z) : Client :=
  set_pollInterval (set_agentVersion c version) interval.

Lemma newUpdateRequest_set_meta (c : Client) v d :
  newUpdateRequest (set_meta c v d) = newUpdateRequest c.
Proof. reflexivity. Qed.

Lemma update_set_meta (c : Client) v d :
  update (set_meta c v d) =
  ((set_meta (update c).1.1 v d), (update c).1.2, (update c).2).
Proof.
  unfold update. rewrite newUpdateRequest_set_meta.
  destruct (newUpdateRequest c) as [req|err]; [|done].
  change (updater (set_meta c v d)) with (updater c).
  destruct (ClientGetConfigs (updater c) req) as [upd [response|err]]; [|done].
  destruct (ClientGetConfigsResponse.TargetFiles response) as [files|]; [|done].
  rewrite !applyUpdate_StateUpdate.
  change (state (set_updater (set_meta c v d) upd)) with (state c).
  change (state (set_updater c upd)) with (state c).
  destruct (StateUpdate (state c) (response_update response))
    as [repo [changed|err]]; [|done].
  cbn [fst snd]. destruct (decide (length changed = 0%nat)); done.
Qed.

Lemma pollLoop_set_meta (env : list SelectCase) :
  ∀ (c : Client) v d,
    pollLoop env (set_meta c v d) =
    ((set_meta (pollLoop env c).1.1 v d), (pollLoop env c).1.2,
     (pollLoop env c).2).
Proof.
  induction env as [|choice env IH]; intros c v d; [done|].
  cbn [pollLoop]. change (cancelled (set_meta c v d)) with (cancelled c).
  destruct (if cancelled c then CtxDone else choice); [done|].
  rewrite update_set_meta.
  destruct (update c) as [[c1 acts] err]. cbn [fst snd].
  change (set_lastUpdateError (set_meta c1 v d) err)
    with (set_meta (set_lastUpdateError c1 err) v d).
  rewrite IH.
  by destruct (pollLoop env (set_lastUpdateError c1 err)) as [[c2 rest] ret].
Qed.

Lemma set_meta_agentVersion (c : Client) v :
  set_agentVersion c v = set_meta c v (pollInterval c).
Proof. by destruct c. Qed.

Lemma set_meta_pollInterval (c : Client) d :
  set_pollInterval c d = set_meta c (agentVersion c) d.
Proof. by destruct c. Qed.

(** C7. The request built by [newUpdateRequest] reports the agent version
    "9.9.9" whatever the client's [agentVersion] is, and the
    [agentVersion] given to [NewClient] changes nothing but that field of
    the client: the requests built at once and all that the poll loop
    does afterwards, every later request included, are the same for any
    two values of it. *)
Theorem agentVersion_never_reported (c : Client) (v : string) :
  match newUpdateRequest c with
  | Ok req =>
      ClientAgent.Version (PbClient.ClientAgent (ClientGetConfigsRequest.Client req))
      = "9.9.9"
  | Err _ => True
  end ∧
  newUpdateRequest (set_agentVersion c v) = newUpdateRequest c ∧
  (∀ env, (pollLoop env (set_agentVersion c v)).1.2 = (pollLoop env c).1.2) ∧
  (∀ rnd name upd v' ps d,
     match NewClient rnd name upd v ps d, NewClient rnd name upd v' ps d with
     | Returned (Ok c1), Returned (Ok c2) =>
         c2 = set_agentVersion c1 v' ∧ newUpdateRequest c1 = newUpdateRequest c2
     | Returned (Err e1), Returned (Err e2) => e1 = e2
     | Panicked m1, Panicked m2 => m1 = m2
     | _, _ => False
     end).
Proof.
  split.
  { unfold newUpdateRequest. by destruct (CurrentState (state c)). }
  split.
  { by rewrite set_meta_agentVersion, newUpdateRequest_set_meta. }
  split.
  { intros env. by rewrite set_meta_agentVersion, pollLoop_set_meta. }
  intros rnd name upd v' ps d. unfold NewClient, newClient.
  destruct (NewRepository RootsDirectorLast) as [repo|err]; [|done].
  destruct (generateID rnd) as [id|msg]; done.
Qed.

(** *** Properties of [pollLoop], [Start] and [Close] *)

(** The actions [update] can perform. *)
Definition update_action (a : Action) : bool :=
  match a with
  | ALock | AUnlock | AReadListeners | ACallListener _ _
  | AGetConfigs _ | AStateUpdate _ | ALog _ => true
  | _ => false
  end.

(** The paths through [update], for proofs that go through them all:
    the first five goals are the early returns, the last is the path
    that reaches the listeners. *)
Ltac update_paths c :=
  unfold update;
  destruct (newUpdateRequest c) as [req|err];
    [destruct (ClientGetConfigs (updater c) req) as [upd [response|err]];
       [destruct (ClientGetConfigsResponse.TargetFiles response) as [files|];
          [rewrite applyUpdate_StateUpdate;
           destruct (StateUpdate (state (set_updater c upd))
                       (response_update response)) as [repo [changed|err]];
             cbn [fst snd];
             [destruct (decide (length changed = 0%nat)); cbn [fst snd]|]
          |]
       |]
    |].

Lemma notify_actions (c : Client) (changed : list string) :
  Forall (λ a, update_action a = true) (notify c changed).
Proof.
  unfold notify. repeat (apply Forall_app; split); repeat constructor.
  destruct (containsProduct changed ProductDebug); [|constructor].
  apply Forall_app. split; [by repeat constructor|].
  apply Forall_forall. intros a Ha. apply list_elem_of_In, in_map_iff in Ha.
  by destruct Ha as (fn & <- & _).
Qed.

Lemma update_actions (c : Client) :
  Forall (λ a, update_action a = true) (update c).1.2.
Proof.
  update_paths c; try (by repeat constructor).
  constructor; [done|]. apply Forall_app. split; [by repeat constructor|].
  apply notify_actions.
Qed.

Lemma pollLoop_unfold_timer (choice : SelectCase) env (c : Client) :
  (if cancelled c then CtxDone else choice) = TimerFired →
  pollLoop (choice :: env) c =
  let c1 := set_lastUpdateError (update c).1.1 (update c).2 in
  ((pollLoop env c1).1.1,
   [ALog LogPollLoop; ASelect (5 * Second) TimerFired] ++
   (update c).1.2 ++ [AStoreLastError (update c).2] ++ (pollLoop env c1).1.2,
   (pollLoop env c1).2).
Proof.
  intros Hsel. cbn [pollLoop]. rewrite Hsel.
  destruct (update c) as [[c1 acts] err]. cbn [fst snd].
  by destruct (pollLoop env (set_lastUpdateError c1 err)) as [[c2 rest] ret].
Qed.

Lemma pollLoop_unfold_done (choice : SelectCase) env (c : Client) :
  (if cancelled c then CtxDone else choice) = CtxDone →
  pollLoop (choice :: env) c =
  (set_cancelled c true, [ALog LogPollLoop; ASelect (5 * Second) CtxDone], true).
Proof. intros Hsel. cbn [pollLoop]. by rewrite Hsel. Qed.

Lemma filter_update_none (p : Action → bool) (c : Client) :
  (∀ a, update_action a = true → p a = false) →
  List.filter p (update c).1.2 = [].
Proof.
  intros Hp. pose proof (update_actions c) as Hall.
  induction Hall as [|a l Ha _ IH]; [done|].
  simpl. by rewrite (Hp a Ha).
Qed.

(** C4. Every round of the poll loop waits in one [select] whose timer is
    5 seconds, and an update is attempted after each timer that fires
    and only then: the actions of [pollLoop] are rounds of a 5-second
    [select] followed by one [update] and the store of its result, until
    the context is done. The timer is 5 seconds for every
    [pollInterval] and after every result of [update], failed or not:
    the loop does the same for any [pollInterval], and it has returned
    exactly when a [select] received the context's cancellation. *)
Theorem pollLoop_waits_five_seconds (env : list SelectCase) (c : Client) :
  let tr := (pollLoop env c).1.2 in
  poll_trace tr ∧
  (∀ d s, ASelect d s ∈ tr → d = 5000000000) ∧
  length (List.filter is_StoreLastError tr) =
    length (List.filter is_TimerFired tr) ∧
  (∀ d, (pollLoop env (set_pollInterval c d)).1.2 = tr ∧
        (pollLoop env (set_pollInterval c d)).2 = (pollLoop env c).2) ∧
  ((pollLoop env c).2 = true ↔ ∃ d, ASelect d CtxDone ∈ tr).
Proof.
  cbn zeta. split; [|split; [|split; [|split]]].
  - revert c. induction env as [|choice env IH]; intros c; [constructor|].
    destruct (if cancelled c then CtxDone else choice) eqn:Hsel.
    + rewrite pollLoop_unfold_done by done. constructor.
    + rewrite pollLoop_unfold_timer by done. cbn zeta. cbn [fst snd].
      apply poll_round, IH.
  - revert c. induction env as [|choice env IH]; intros c d s Hin.
    { by apply elem_of_nil in Hin. }
    destruct (if cancelled c then CtxDone else choice) eqn:Hsel.
    + rewrite pollLoop_unfold_done in Hin by done. cbn [fst snd] in Hin.
      apply elem_of_cons in Hin as [?|Hin]; [done|].
      apply elem_of_cons in Hin as [Heq|Hin]; [by injection Heq as -> _|].
      by apply elem_of_nil in Hin.
    + rewrite pollLoop_unfold_timer in Hin by done. cbn zeta in Hin.
      cbn [fst snd] in Hin.
      apply elem_of_app in Hin as [Hin|Hin].
      { apply elem_of_cons in Hin as [?|Hin]; [done|].
        apply elem_of_cons in Hin as [Heq|Hin]; [by injection Heq as -> _|].
        by apply elem_of_nil in Hin. }
      apply elem_of_app in Hin as [Hin|Hin].
      { pose proof (update_actions c) as Hall.
        rewrite Forall_forall in Hall. by apply Hall in Hin. }
      apply elem_of_cons in Hin as [?|Hin]; [done|]. by eapply IH.
  - revert c. induction env as [|choice env IH]; intros c; [done|].
    destruct (if cancelled c then CtxDone else choice) eqn:Hsel.
    + by rewrite pollLoop_unfold_done.
    + rewrite pollLoop_unfold_timer by done. cbn zeta. cbn [fst snd].
      rewrite !List.filter_app, !length_app.
      rewrite !(filter_update_none _ c) by (by intros []).
      cbn. by rewrite IH.
  - intros d. by rewrite set_meta_pollInterval, pollLoop_set_meta.
  - revert c. induction env as [|choice env IH]; intros c.
    { split; [done|]. intros [d Hin]. by apply elem_of_nil in Hin. }
    destruct (if cancelled c then CtxDone else choice) eqn:Hsel.
    + rewrite pollLoop_unfold_done by done. cbn [fst snd].
      split; [|done]. intros _. exists (5 * Second). right. left.
    + rewrite pollLoop_unfold_timer by done. cbn zeta. cbn [fst snd].
      rewrite IH. split; intros [d Hin]; exists d.
      * apply elem_of_app. right. apply elem_of_app. right. by right.
      * apply elem_of_app in Hin as [Hin|Hin].
        { apply elem_of_cons in Hin as [?|Hin]; [done|].
          apply elem_of_cons in Hin as [?|Hin]; [done|].
          by apply elem_of_nil in Hin. }
        apply elem_of_app in Hin as [Hin|Hin].
        { pose proof (update_actions c) as Hall.
          rewrite Forall_forall in Hall. by apply Hall in Hin. }
        by apply elem_of_cons in Hin as [?|Hin].
Qed.

Lemma call_startupSync (k : Call) (c : Client) :
  startupSync c = true → startupSync (call k c).1 = true.
Proof. intros H. destruct k; cbn; [unfold Start; by rewrite H | done | done]. Qed.

Lemma call_cancelled (k : Call) (c : Client) :
  cancelled c = true → cancelled (call k c).1 = true.
Proof.
  intros H. destruct k; cbn; [|done|done].
  unfold Start. by destruct (startupSync c).
Qed.

Lemma calls_cancelled (ks : list Call) :
  ∀ c : Client, cancelled c = true → cancelled (calls ks c).1 = true.
Proof.
  induction ks as [|k ks IH]; intros c H; [done|].
  cbn [calls]. pose proof (call_cancelled k c H) as Hk.
  destruct (call k c) as [c1 acts]. specialize (IH c1 Hk).
  by destruct (calls ks c1).
Qed.

Lemma calls_go_count (ks : list Call) :
  ∀ c : Client,
    (length (List.filter is_Go (calls ks c).2) ≤
     if startupSync c then 0 else 1)%nat.
Proof.
  induction ks as [|k ks IH]; intros c.
  { cbn. destruct (startupSync c); lia. }
  cbn [calls].
  pose proof (call_startupSync k c) as Hmono.
  assert (length (List.filter is_Go (call k c).2) =
          if startupSync c then 0%nat
          else if startupSync (call k c).1 then 1%nat else 0%nat) as Hk.
  { destruct k; cbn; [|by destruct (startupSync c)..].
    unfold Start. by destruct (startupSync c) eqn:Hs; cbn; rewrite ?Hs. }
  destruct (call k c) as [c1 acts]. specialize (IH c1).
  destruct (calls ks c1) as [c2 rest]. cbn [fst snd] in *.
  rewrite List.filter_app, length_app, Hk.
  destruct (startupSync c); [rewrite Hmono in IH by done; lia|].
  destruct (startupSync c1); lia.
Qed.

Lemma pollLoop_cancelled (env : list SelectCase) (c : Client) :
  cancelled c = true →
  (pollLoop env c).1.2 =
    match env with
    | [] => []
    | _ :: _ => [ALog LogPollLoop; ASelect (5 * Second) CtxDone]
    end ∧
  (pollLoop env c).2 = match env with [] => false | _ :: _ => true end.
Proof.
  intros H. destruct env as [|choice env]; [done|].
  rewrite pollLoop_unfold_done; [done|]. by rewrite H.
Qed.

(** C5. Over any sequence of calls of [Start], [Close] and
    [RegisterDebug] on a client, [go c.pollLoop()] runs at most once, and
    not at all when the client was started before: a [Start] on a
    started client changes nothing and does nothing, and [Start] leaves
    the client started. A closed client stays closed whatever is called
    next, and a poll loop of a closed client returns from its first
    [select] without asking the updater for anything: it is never
    polling again. *)
Theorem Start_starts_poll_loop_at_most_once (ks : list Call) (c : Client) :
  (length (List.filter is_Go (calls ks c).2) ≤ 1)%nat ∧
  (startupSync c = true → List.filter is_Go (calls ks c).2 = []) ∧
  (startupSync c = true → Start c = (c, [])) ∧
  startupSync (Start c).1 = true ∧
  (let closed := (calls ks (Close c).1).1 in
   cancelled closed = true ∧
   ∀ env, List.filter is_GetConfigs (pollLoop env closed).1.2 = [] ∧
          List.filter is_StoreLastError (pollLoop env closed).1.2 = [] ∧
          (env ≠ [] → (pollLoop env closed).2 = true)).
Proof.
  pose proof (calls_go_count ks c) as Hcount.
  split; [destruct (startupSync c); lia|].
  split.
  { intros Hs. rewrite Hs in Hcount.
    destruct (List.filter is_Go (calls ks c).2); [done|]. cbn in Hcount. lia. }
  split. { intros Hs. unfold Start. by rewrite Hs. }
  split. { unfold Start. by destruct (startupSync c) eqn:Hs. }
  cbn zeta.
  assert (cancelled (calls ks (Close c).1).1 = true) as Hclosed.
  { by apply calls_cancelled. }
  split; [done|]. intros env.
  destruct (pollLoop_cancelled env _ Hclosed) as [Htr Hret].
  rewrite Htr, Hret. by destruct env.
Qed.

(** *** The mutex discipline *)

Lemma under_mutex_app (a b : list Action) :
  ∀ held, under_mutex held a = true → under_mutex false b = true →
          under_mutex held (a ++ b) = true.
Proof.
  induction a as [|x a IH]; intros held Ha Hb.
  - destruct held; [done|]. done.
  - destruct x, held; cbn in *; try done; by apply IH.
Qed.

Lemma under_mutex_calls (ls : list Listener) (u : DebugConfigs) :
  under_mutex true (map (λ fn, ACallListener fn u) ls ++ [AUnlock]) = true.
Proof. induction ls as [|fn ls IH]; [done|]. cbn. exact IH. Qed.

Lemma under_mutex_notify (c : Client) (changed : list string) :
  under_mutex false (notify c changed) = true.
Proof.
  unfold notify. destruct (containsProduct changed ProductDebug); [|done].
  cbn. apply (under_mutex_calls (debugListeners c)).
Qed.

Lemma under_mutex_update (c : Client) :
  under_mutex false (update c).1.2 = true.
Proof.
  update_paths c; try done.
  apply (under_mutex_app
           [AGetConfigs req; AStateUpdate (response_update response)] _ false);
    [done | apply under_mutex_notify].
Qed.

Lemma under_mutex_pollLoop (env : list SelectCase) :
  ∀ c : Client, under_mutex false (pollLoop env c).1.2 = true.
Proof.
  induction env as [|choice env IH]; intros c; [done|].
  destruct (if cancelled c then CtxDone else choice) eqn:Hsel.
  - by rewrite pollLoop_unfold_done.
  - rewrite pollLoop_unfold_timer by done. cbn zeta. cbn [fst snd].
    cbn [app under_mutex needs_mutex andb].
    apply under_mutex_app; [apply under_mutex_update|].
    cbn. apply IH.
Qed.

Lemma client_thread_under_mutex (t : list Action) :
  client_thread t → under_mutex false t = true.
Proof.
  intros [fn c | c | env c].
  - done.
  - apply under_mutex_update.
  - apply under_mutex_pollLoop.
Qed.

(** The invariant of the interleavings: each goroutine's remaining
    actions keep the discipline, from holding the mutex exactly when the
    goroutine is the holder. *)
Definition mutex_inv (cfg : Config) : Prop :=
  ∀ i t, threads cfg !! i = Some t →
         under_mutex (bool_decide (holder cfg = Some i)) t = true.

Lemma mutex_inv_init (ths : list (list Action)) :
  Forall client_thread ths → mutex_inv (mkConfig None ths).
Proof.
  intros Hall i t Ht. cbn in *. rewrite bool_decide_false by done.
  apply client_thread_under_mutex. rewrite Forall_forall in Hall.
  apply Hall. by eapply list_elem_of_lookup_2.
Qed.

Lemma lookup_insert_thread (ths : list (list Action)) i j rest t old :
  ths !! i = Some old →
  <[i := rest]> ths !! j = Some t →
  (j = i ∧ t = rest) ∨ (j ≠ i ∧ ths !! j = Some t).
Proof.
  intros Hi Hj. destruct (decide (i = j)) as [->|Hne].
  - left. rewrite list_lookup_insert_eq in Hj by (by eapply lookup_lt_Some).
    by injection Hj as ->.
  - right. rewrite list_lookup_insert_ne in Hj by done. by split.
Qed.

Lemma mutex_inv_step (cfg cfg' : Config) :
  mutex_inv cfg → step cfg cfg' → mutex_inv cfg'.
Proof.
  intros Hinv Hstep.
  destruct Hstep as [cfg i rest Hi Hfree | cfg i rest Hi Hheld
                    | cfg i a rest Hi Hl Hu]; intros j t Hj; cbn in *;
    destruct (lookup_insert_thread _ _ _ _ _ _ Hi Hj) as [[-> ->]|[Hne Hold]].
  - specialize (Hinv i _ Hi). rewrite Hfree in Hinv.
    rewrite bool_decide_false in Hinv by done. cbn in Hinv.
    by rewrite bool_decide_true.
  - specialize (Hinv j _ Hold). rewrite Hfree in Hinv.
    rewrite bool_decide_false in Hinv by done.
    by rewrite bool_decide_false by congruence.
  - specialize (Hinv i _ Hi). cbn in Hinv.
    apply andb_true_iff in Hinv as [_ Hrest].
    by rewrite bool_decide_false.
  - pose proof (Hinv i _ Hi) as Hme. cbn in Hme.
    apply andb_true_iff in Hme as [Hmine _].
    apply bool_decide_eq_true in Hmine.
    specialize (Hinv j _ Hold).
    rewrite bool_decide_false in Hinv by congruence.
    by rewrite bool_decide_false.
  - specialize (Hinv i _ Hi).
    destruct a; try done; cbn in Hinv;
      by apply andb_true_iff in Hinv as [_ Hrest].
  - by apply Hinv.
Qed.

Lemma mutex_inv_reachable (cfg cfg' : Config) :
  mutex_inv cfg → rtc step cfg cfg' → mutex_inv cfg'.
Proof.
  intros Hinv Hsteps. induction Hsteps as [|x y z Hxy _ IH]; [done|].
  apply IH. by eapply mutex_inv_step.
Qed.

Lemma mutex_inv_needs_mutex (cfg : Config) i a rest :
  mutex_inv cfg →
  threads cfg !! i = Some (a :: rest) →
  needs_mutex a = true →
  holder cfg = Some i.
Proof.
  intros Hinv Hi Ha. specialize (Hinv i _ Hi).
  destruct a; try done; cbn in Hinv;
    apply andb_true_iff in Hinv as [Hh _]; by apply bool_decide_eq_true in Hh.
Qed.

(** C6. [RegisterDebug] reads and appends to the listener list and
    invokes the new listener with the current [DebugConfigs] between
    [c.m.Lock()] and [c.m.Unlock()], and so does [update] for its reads
    of the list and its listener invocations. Hence, for goroutines that
    each run a registration, an update or the poll loop, in every state
    any interleaving of them reaches, a goroutine about to read or write
    the listener list or to invoke a listener holds the mutex, and no two
    goroutines are about to access the list at once: there is no race. *)
Theorem listeners_guarded_by_mutex
  (ths : list (list Action)) (cfg : Config) :
  Forall client_thread ths →
  rtc step (mkConfig None ths) cfg →
  (∀ fn c, ∃ u,
     (RegisterDebug fn c).2 =
       [ALock; AReadListeners; AAppendListener fn; ACallListener fn u; AUnlock] ∧
     u = GetDebugConfigs (state c) ∧
     debugListeners (RegisterDebug fn c).1 = debugListeners c ++ [fn]) ∧
  (∀ c, under_mutex false (update c).1.2 = true) ∧
  (∀ i a rest, threads cfg !! i = Some (a :: rest) →
               needs_mutex a = true → holder cfg = Some i) ∧
  ¬ race cfg.
Proof.
  intros Hths Hreach.
  assert (mutex_inv cfg) as Hinv.
  { eapply mutex_inv_reachable; [|done]. by apply mutex_inv_init. }
  split. { intros fn c. by eexists. }
  split. { apply under_mutex_update. }
  split. { intros i a rest. by apply mutex_inv_needs_mutex. }
  intros (i & j & a & b & ri & rj & Hne & Hi & Hj & Ha & Hb & _).
  assert (holder cfg = Some i) as Hhi.
  { eapply mutex_inv_needs_mutex; [done..|]. by destruct a. }
  assert (holder cfg = Some j) as Hhj.
  { eapply mutex_inv_needs_mutex; [done..|]. by destruct b. }
  congruence.
Qed.

(** *** Further properties of the client *)

(** [containsProduct] is membership in the slice. *)
Theorem containsProduct_iff_member (products : list string) (product : string) :
  containsProduct products product = true ↔ product ∈ products.
Proof. apply containsProduct_elem_of. Qed.

Lemma fileMap_of_snoc (files : list File.t) (f : File.t) :
  fileMap_of (files ++ [f]) = <[File.Path f := File.Raw f]> (fileMap_of files).
Proof. unfold fileMap_of. by rewrite foldl_app. Qed.

Lemma fileMap_of_lookup (files : list File.t) path raw :
  fileMap_of files !! path = Some raw → File.mk path raw ∈ files.
Proof.
  revert raw. induction files as [|f files IH] using rev_ind; intros raw Hl.
  { unfold fileMap_of in Hl. cbn in Hl. by rewrite lookup_empty in Hl. }
  rewrite fileMap_of_snoc in Hl. apply elem_of_app.
  destruct (decide (File.Path f = path)) as [<-|Hne].
  - rewrite lookup_insert_eq in Hl. injection Hl as <-.
    right. destruct f. left.
  - rewrite lookup_insert_ne in Hl by done. left. by apply IH.
Qed.

(** [applyUpdate] hands [state.Update] the roots, targets and client
    configs of the response as they are, and its target files as a map
    from path to content in which a later file replaces an earlier one
    of the same path; the client's repository is the one [state.Update]
    leaves, and the call returns what [state.Update] returns. *)
Theorem applyUpdate_builds_update (c : Client) (pbUpdate : ClientGetConfigsResponse.t) :
  let '(c', acts, res) := applyUpdate c pbUpdate in
  let u := response_update pbUpdate in
  acts = [AStateUpdate u] ∧
  (state c', res) = StateUpdate (state c) u ∧
  Update.TUFRoots u = ClientGetConfigsResponse.Roots pbUpdate ∧
  Update.TUFTargets u = ClientGetConfigsResponse.Targets pbUpdate ∧
  Update.ClientConfigs u = ClientGetConfigsResponse.ClientConfigs pbUpdate ∧
  fileMap_of [] = ∅ ∧
  (∀ files f,
     fileMap_of (files ++ [f]) !! File.Path f = Some (File.Raw f) ∧
     ∀ path, path ≠ File.Path f →
             fileMap_of (files ++ [f]) !! path = fileMap_of files !! path) ∧
  (∀ path raw,
     Update.TargetFiles u !! path = Some raw →
     ∃ files, ClientGetConfigsResponse.TargetFiles pbUpdate = Some files ∧
              File.mk path raw ∈ files).
Proof.
  rewrite applyUpdate_StateUpdate. cbn zeta.
  split; [done|]. split.
  { cbn [state set_state]. by destruct (StateUpdate _ _). }
  do 4 (split; [done|]). split.
  - intros files f. rewrite fileMap_of_snoc. split.
    + by rewrite lookup_insert_eq.
    + intros path Hne. by rewrite lookup_insert_ne.
  - intros path raw. cbn [Update.TargetFiles response_update].
    destruct (ClientGetConfigsResponse.TargetFiles pbUpdate) as [files|];
      cbn [default].
    + intros Hl. exists files. split; [done|]. by apply fileMap_of_lookup.
    + unfold fileMap_of. cbn. by rewrite lookup_empty.
Qed.




Lemma update_cancelled (c : Client) : cancelled (update c).1.1 = cancelled c.
Proof. update_paths c; done. Qed.



(** *** What the poll loop leaves alone, and how registrations and
    updates compose *)

(** The fields of the client that identify it and its listeners. *)
Definition same_fields (c c' : Client) : Prop :=
  ID c' = ID c ∧ startupSync c' = startupSync c ∧
  agentName c' = agentName c ∧ agentVersion c' = agentVersion c ∧
  products c' = products c ∧ clusterName c' = clusterName c ∧
  clusterID c' = clusterID c ∧ cwsWorkloads c' = cwsWorkloads c ∧
  pollInterval c' = pollInterval c ∧ debugListeners c' = debugListeners c.

Lemma same_fields_refl (c : Client) : same_fields c c.
Proof. by repeat split. Qed.

Lemma same_fields_trans (c1 c2 c3 : Client) :
  same_fields c1 c2 → same_fields c2 c3 → same_fields c1 c3.
Proof.
  unfold same_fields. intros H12 H23.
  destruct H12 as (?&?&?&?&?&?&?&?&?&?), H23 as (?&?&?&?&?&?&?&?&?&?).
  repeat split; congruence.
Qed.

Lemma update_same_fields (c : Client) :
  same_fields c (update c).1.1 ∧
  lastUpdateError (update c).1.1 = lastUpdateError c.
Proof. update_paths c; by repeat split. Qed.

Lemma pollLoop_same_fields (env : list SelectCase) :
  ∀ c : Client,
    same_fields c (pollLoop env c).1.1 ∧
    (cancelled c = true → cancelled (pollLoop env c).1.1 = true).
Proof.
  induction env as [|choice env IH]; intros c.
  { split; [apply same_fields_refl | done]. }
  destruct (if cancelled c then CtxDone else choice) eqn:Hsel.
  - rewrite pollLoop_unfold_done by done. split; [by repeat split | done].
  - rewrite pollLoop_unfold_timer by done. cbn zeta. cbn [fst snd].
    destruct (IH (set_lastUpdateError (update c).1.1 (update c).2))
      as [Hsame Hcancel].
    split.
    + eapply same_fields_trans; [|exact Hsame].
      destruct (update_same_fields c) as [H _]. exact H.
    + intros Hc. by rewrite Hc in Hsel.
Qed.

(** [update] changes nothing of the client but its repository and its
    updater, and the poll loop nothing but these, [lastUpdateError] and
    the context: the ID, the agent name and version, the products, the
    cluster fields, the poll interval, the started flag and the
    registered listeners are the same after any run of the loop, and a
    cancelled context stays cancelled. *)
Theorem pollLoop_keeps_identity_and_listeners
  (env : list SelectCase) (c : Client) :
  same_fields c (update c).1.1 ∧
  lastUpdateError (update c).1.1 = lastUpdateError c ∧
  cancelled (update c).1.1 = cancelled c ∧
  same_fields c (pollLoop env c).1.1 ∧
  (cancelled c = true → cancelled (pollLoop env c).1.1 = true).
Proof.
  destruct (update_same_fields c) as [H1 H2].
  destruct (pollLoop_same_fields env c) as [H3 H4].
  split; [done|]. split; [done|]. split; [apply update_cancelled|]. by split.
Qed.

(** [notifies c]: the update of [c] reaches the listeners, that is, it
    gets as far as [containsProduct] and [ProductDebug] is among the
    changed products. *)
Definition notifies (c : Client) : bool :=
  match newUpdateRequest c with
  | Err _ => false
  | Ok req =>
      match ClientGetConfigs (updater c) req with
      | (_, Err _) => false
      | (_, Ok response) =>
          match ClientGetConfigsResponse.TargetFiles response with
          | None => false
          | Some _ =>
              match StateUpdate (state c) (response_update response) with
              | (_, Err _) => false
              | (_, Ok changed) => containsProduct changed ProductDebug
              end
          end
      end
  end.

Lemma notifies_debug_changed (c : Client) :
  notifies c = true ↔ debug_changed c.
Proof.
  unfold notifies. split.
  - destruct (newUpdateRequest c) as [req|] eqn:Hreq; [|done].
    destruct (ClientGetConfigs (updater c) req) as [upd [response|]] eqn:Hget;
      [|done].
    destruct (ClientGetConfigsResponse.TargetFiles response) as [files|] eqn:Hf;
      [|done].
    destruct (StateUpdate (state c) (response_update response))
      as [repo [changed|]] eqn:Hupd; [|done].
    intros Hc. apply containsProduct_elem_of in Hc. by econstructor.
  - intros [req upd response files repo changed Hreq Hget Hf Hupd Hin].
    rewrite Hreq, Hget, Hf, Hupd. by apply containsProduct_elem_of.
Qed.

Lemma listener_calls_update (c : Client) :
  listener_calls (update c).1.2 =
  if notifies c
  then map (λ fn, (fn, GetDebugConfigs (state (update c).1.1)))
           (debugListeners c)
  else [].
Proof.
  unfold notifies, update.
  destruct (newUpdateRequest c) as [req|] eqn:Hreq; [|done].
  destruct (ClientGetConfigs (updater c) req) as [upd [response|]] eqn:Hget;
    [|done].
  destruct (ClientGetConfigsResponse.TargetFiles response) as [files|] eqn:Hf;
    [|done].
  rewrite applyUpdate_StateUpdate. cbn [state set_updater].
  destruct (StateUpdate (state c) (response_update response))
    as [repo [changed|]] eqn:Hupd; cbn [fst snd]; [|done].
  destruct (decide (length changed = 0%nat)) as [Hlen|Hlen]; cbn [fst snd].
  { apply length_zero_iff_nil in Hlen. by subst. }
  change (listener_calls
            (AGetConfigs req :: [AStateUpdate (response_update response)] ++
             notify (set_state (set_updater c upd) repo) changed))
    with (listener_calls (notify (set_state (set_updater c upd) repo) changed)).
  by rewrite listener_calls_notify.
Qed.

Lemma update_set_debugListeners (c : Client) (l : list Listener) :
  (update (set_debugListeners c l)).2 = (update c).2 ∧
  state (update (set_debugListeners c l)).1.1 = state (update c).1.1 ∧
  updater (update (set_debugListeners c l)).1.1 = updater (update c).1.1 ∧
  notifies (set_debugListeners c l) = notifies c.
Proof.
  split; [|split; [|split]]; [| | |done].
  all: unfold update;
    change (newUpdateRequest (set_debugListeners c l))
      with (newUpdateRequest c);
    change (updater (set_debugListeners c l)) with (updater c);
    destruct (newUpdateRequest c) as [req|]; [|done];
    destruct (ClientGetConfigs (updater c) req) as [upd [response|]]; [|done];
    destruct (ClientGetConfigsResponse.TargetFiles response) as [files|];
      [|done];
    rewrite !applyUpdate_StateUpdate;
    change (state (set_updater (set_debugListeners c l) upd)) with (state c);
    change (state (set_updater c upd)) with (state c);
    destruct (StateUpdate (state c) (response_update response))
      as [repo [changed|]]; cbn [fst snd]; [|done];
    by destruct (decide (length changed = 0%nat)).
Qed.

(** [RegisterDebug] invokes the new listener once, at once, with the
    [DebugConfigs] of the moment, and changes nothing that an update
    depends on: the next update returns the same error and leaves the
    same repository as without the registration. It invokes the
    listeners registered before, as it would have, and then the new one,
    when it reports [ProductDebug]; otherwise it invokes none. *)
Theorem RegisterDebug_then_update (fn : Listener) (c : Client) :
  let c1 := (RegisterDebug fn c).1 in
  listener_calls (RegisterDebug fn c).2 = [(fn, GetDebugConfigs (state c))] ∧
  (update c1).2 = (update c).2 ∧
  state (update c1).1.1 = state (update c).1.1 ∧
  (debug_changed c →
   listener_calls (update c1).1.2 =
   listener_calls (update c).1.2 ++
   [(fn, GetDebugConfigs (state (update c).1.1))]) ∧
  (¬ debug_changed c → listener_calls (update c1).1.2 = []).
Proof.
  cbn zeta. cbn [RegisterDebug fst snd].
  destruct (update_set_debugListeners c (debugListeners c ++ [fn]))
    as (Herr & Hstate & _ & Hnot).
  split; [done|]. split; [done|]. split; [done|].
  rewrite !listener_calls_update, Hnot, Hstate.
  cbn [debugListeners set_debugListeners].
  split.
  - intros H%notifies_debug_changed. rewrite H. by rewrite map_app.
  - intros H. destruct (notifies c) eqn:Hn; [|done].
    by apply notifies_debug_changed in Hn.
Qed.

(** Once a [select] of the poll loop receives the cancellation, the loop
    has returned with the context cancelled and does nothing more,
    whatever would have been received afterwards; it has attempted at
    most one update per timer that fired before. *)
Theorem pollLoop_stops_at_cancellation
  (env1 env2 : list SelectCase) (c : Client) :
  pollLoop (env1 ++ CtxDone :: env2) c = pollLoop (env1 ++ [CtxDone]) c ∧
  (pollLoop (env1 ++ [CtxDone]) c).2 = true ∧
  cancelled (pollLoop (env1 ++ [CtxDone]) c).1.1 = true ∧
  (length (List.filter is_StoreLastError (pollLoop (env1 ++ [CtxDone]) c).1.2)
   ≤ length env1)%nat.
Proof.
  revert env2 c.
  induction env1 as [|choice env1 IH]; intros env2 c.
  - cbn [app]. rewrite !pollLoop_unfold_done by (by destruct (cancelled c)).
    by repeat split.
  - cbn [app]. destruct (if cancelled c then CtxDone else choice) eqn:Hsel.
    + rewrite !pollLoop_unfold_done by done. repeat split. cbn. lia.
    + rewrite !pollLoop_unfold_timer by done. cbn zeta. cbn [fst snd].
      destruct (IH env2 (set_lastUpdateError (update c).1.1 (update c).2))
        as (Heq & Hret & Hc & Hlen).
      rewrite Heq. split; [done|]. split; [done|]. split; [done|].
      rewrite !List.filter_app, !length_app.
      rewrite (filter_update_none _ c) by (by intros []).
      cbn. lia.
Qed.




End Client.

(** *** Properties of [generateID] *)

Lemma idAlphabet_length : length idAlphabet = 64%nat.
Proof. reflexivity. Qed.

Lemma mask63_bound (b : Byte.byte) :
  0 <= Z.land (byte_to_Z b) 63 < 64.
Proof.
  change 63 with (Z.ones 6).
  rewrite Z.land_ones by lia.
  apply Z.mod_pos_bound. lia.
Qed.

Lemma idAlphabet_masked (b : Byte.byte) :
  ∃ r, idAlphabet !! Z.to_nat (Z.land (byte_to_Z b) 63) = Some r.
Proof.
  apply lookup_lt_is_Some. rewrite idAlphabet_length.
  pose proof (mask63_bound b). lia.
Qed.

Lemma rand_Read_length (r : RandRead) (buf : list Byte.byte) :
  length (rand_Read r buf).1 = length buf.
Proof.
  unfold rand_Read. simpl.
  rewrite length_take, length_app, length_drop. lia.
Qed.

Lemma generateID_loop_ok (idx : list nat) (bytes : list Byte.byte) :
  ∀ id : list ascii,
    (∀ i, i ∈ idx → (i < length bytes)%nat ∧ (i < length id)%nat) →
    ∃ id',
      generateID_loop idx bytes id = Returned id' ∧
      length id' = length id ∧
      ∀ j, (j ∈ idx → ∃ c, id' !! j = Some c ∧ c ∈ idAlphabet) ∧
           (j ∉ idx → id' !! j = id !! j).
Proof.
  induction idx as [|i idx IH]; intros id Hin.
  - exists id. split; [done|]. split; [done|].
    intros j. split; [intros Hj; by apply elem_of_nil in Hj | done].
  - destruct (Hin i) as [Hb Hi]; [left|].
    destruct (lookup_lt_is_Some_2 bytes i Hb) as [b Hbi].
    destruct (idAlphabet_masked b) as [r Hr].
    cbn [generateID_loop]. rewrite Hbi, Hr.
    destruct (decide (i < length id)%nat) as [_|Hn]; [|lia].
    destruct (IH (<[i := r]> id)) as (id' & Hrun & Hlen & Hpos).
    { intros k Hk. rewrite length_insert. apply Hin. by right. }
    exists id'. split; [done|]. split.
    { by rewrite Hlen, length_insert. }
    intros j. destruct (Hpos j) as [Hpin Hpout]. split.
    + intros Hj. destruct (decide (j ∈ idx)) as [Hjx|Hjx]; [by apply Hpin|].
      apply elem_of_cons in Hj as [->|Hj]; [|done].
      exists r. split.
      * rewrite (Hpout Hjx). by apply list_lookup_insert_eq.
      * by eapply list_elem_of_lookup_2.
    + intros Hj. apply not_elem_of_cons in Hj as [Hne Hjx].
      rewrite (Hpout Hjx). by apply list_lookup_insert_ne.
Qed.

Lemma generateID_outcome (r : RandRead) :
  match generateID r with
  | Returned id =>
      rr_err r = None ∧
      String.length id = 21%nat ∧
      Forall (λ c, c ∈ idAlphabet) (list_ascii_of_string id)
  | Panicked msg => ∃ e, rr_err r = Some e ∧ msg = Error e
  end.
Proof.
  unfold generateID.
  pose proof (rand_Read_length r (replicate idSize Byte.x00)) as Hlen.
  destruct (rand_Read r (replicate idSize Byte.x00)) as [bytes err] eqn:Hrd.
  assert (err = rr_err r) as -> by (unfold rand_Read in Hrd; congruence).
  rewrite length_replicate in Hlen. cbn [fst] in Hlen.
  destruct (rr_err r) as [e|]; [by exists e|].
  destruct (generateID_loop_ok (seq 0 idSize) bytes
              (replicate idSize Ascii.zero)) as (id & Hrun & Hl & Hpos).
  { intros i Hi. apply elem_of_seq in Hi.
    rewrite length_replicate, Hlen. lia. }
  rewrite Hrun. rewrite length_replicate in Hl.
  split; [done|].
  rewrite take_ge by lia. split.
  - transitivity (length id); [|exact Hl].
    clear. induction id as [|c id IH]; simpl; congruence.
  - rewrite list_ascii_of_string_of_list_ascii.
    apply Forall_lookup_2. intros j c Hj.
    destruct (Hpos j) as [Hin _].
    destruct Hin as (c' & Hc' & Hmem).
    { apply elem_of_seq. apply lookup_lt_Some in Hj. lia. }
    congruence.
Qed.

(** C8. Whatever [rand.Read] writes, [generateID] returns exactly when
    [rand.Read] reports no error (it panics otherwise), and the string
    returned has exactly 21 characters, each of them a member of the
    64-character [idAlphabet]; the index [bytes[i] & 63] is always below
    the alphabet's length. *)
Theorem generateID_21_chars_of_alphabet (r : RandRead) :
  length idAlphabet = 64%nat ∧
  (∀ b : Byte.byte,
     (Z.to_nat (Z.land (byte_to_Z b) 63) < length idAlphabet)%nat) ∧
  match generateID r with
  | Returned id =>
      rr_err r = None ∧
      String.length id = 21%nat ∧
      Forall (λ c, c ∈ idAlphabet) (list_ascii_of_string id)
  | Panicked msg => ∃ e, rr_err r = Some e ∧ msg = Error e
  end.
Proof.
  split; [reflexivity|]. split.
  { intros b. rewrite idAlphabet_length. pose proof (mask63_bound b). lia. }
  apply generateID_outcome.
Qed.

(** *** Properties of [NewClient] *)

Section NewClient.

Context {Repository DebugConfigs Updater Listener : Type}.
Context `{!RepositoryAPI Repository DebugConfigs} `{!ConfigUpdater Updater}.
Variable RootsDirectorLast : list Byte.byte.


End NewClient.

(** *** When two IDs of [generateID] are the same *)

(** The rune [idAlphabet[b & 63]] that [generateID] writes for the
    random byte [b]. *)
Definition id_rune (b : Byte.byte) : ascii :=
  default Ascii.zero (idAlphabet !! Z.to_nat (Z.land (byte_to_Z b) 63)).

(** The bytes [rand.Read] leaves in the fresh buffer of [generateID]. *)
Definition drawn (r : RandRead) : list Byte.byte :=
  (rand_Read r (replicate idSize Byte.x00)).1.

Lemma idAlphabet_NoDup : NoDup idAlphabet.
Proof. by apply (bool_decide_unpack _). Qed.

Lemma id_rune_lookup (b : Byte.byte) :
  idAlphabet !! Z.to_nat (Z.land (byte_to_Z b) 63) = Some (id_rune b).
Proof.
  unfold id_rune. by destruct (idAlphabet_masked b) as [r ->].
Qed.

Lemma id_rune_inj (b1 b2 : Byte.byte) :
  id_rune b1 = id_rune b2 ↔
  Z.land (byte_to_Z b1) 63 = Z.land (byte_to_Z b2) 63.
Proof.
  split.
  - intros Heq.
    pose proof (id_rune_lookup b1) as H1.
    pose proof (id_rune_lookup b2) as H2.
    rewrite Heq in H1.
    pose proof (NoDup_lookup _ _ _ _ idAlphabet_NoDup H1 H2) as Hij.
    pose proof (mask63_bound b1). pose proof (mask63_bound b2). lia.
  - intros Heq. unfold id_rune. by rewrite Heq.
Qed.

Lemma generateID_loop_runes (idx : list nat) (bytes : list Byte.byte) :
  ∀ id : list ascii,
    (∀ i, i ∈ idx → (i < length bytes)%nat ∧ (i < length id)%nat) →
    ∃ id',
      generateID_loop idx bytes id = Returned id' ∧
      length id' = length id ∧
      ∀ j, (j ∈ idx → id' !! j = id_rune <$> bytes !! j) ∧
           (j ∉ idx → id' !! j = id !! j).
Proof.
  induction idx as [|i idx IH]; intros id Hin.
  - exists id. split; [done|]. split; [done|].
    intros j. split; [intros Hj; by apply elem_of_nil in Hj | done].
  - destruct (Hin i) as [Hb Hi]; [left|].
    destruct (lookup_lt_is_Some_2 bytes i Hb) as [b Hbi].
    cbn [generateID_loop]. rewrite Hbi, id_rune_lookup.
    destruct (decide (i < length id)%nat) as [_|Hn]; [|lia].
    destruct (IH (<[i := id_rune b]> id)) as (id' & Hrun & Hlen & Hpos).
    { intros k Hk. rewrite length_insert. apply Hin. by right. }
    exists id'. split; [done|]. split.
    { by rewrite Hlen, length_insert. }
    intros j. destruct (Hpos j) as [Hpin Hpout]. split.
    + intros Hj. destruct (decide (j ∈ idx)) as [Hjx|Hjx]; [by apply Hpin|].
      apply elem_of_cons in Hj as [->|Hj]; [|done].
      rewrite (Hpout Hjx), Hbi. by apply list_lookup_insert_eq.
    + intros Hj. apply not_elem_of_cons in Hj as [Hne Hjx].
      rewrite (Hpout Hjx). by apply list_lookup_insert_ne.
Qed.

Lemma drawn_length (r : RandRead) : length (drawn r) = idSize.
Proof.
  unfold drawn. by rewrite rand_Read_length, length_replicate.
Qed.

Lemma generateID_runes (r : RandRead) :
  rr_err r = None →
  generateID r = Returned (string_of_list_ascii (id_rune <$> drawn r)).
Proof.
  intros Herr. pose proof (drawn_length r) as Hlen.
  unfold generateID, drawn in *.
  destruct (rand_Read r (replicate idSize Byte.x00)) as [bytes err] eqn:Hrd.
  assert (err = rr_err r) as -> by (unfold rand_Read in Hrd; congruence).
  cbn [fst] in Hlen. rewrite Herr.
  destruct (generateID_loop_runes (seq 0 idSize) bytes
              (replicate idSize Ascii.zero)) as (id & Hrun & Hl & Hpos).
  { intros i Hi. apply elem_of_seq in Hi.
    rewrite length_replicate, Hlen. lia. }
  rewrite Hrun. rewrite length_replicate in Hl.
  rewrite take_ge by lia. do 2 f_equal.
  apply list_eq. intros j. rewrite list_lookup_fmap.
  destruct (decide (j < idSize)%nat) as [Hj|Hj].
  - cbn [fst]. destruct (Hpos j) as [Hin _]. apply Hin, elem_of_seq. lia.
  - cbn [fst]. rewrite !lookup_ge_None_2; [done | lia | lia].
Qed.

Lemma string_of_list_ascii_inj (l1 l2 : list ascii) :
  string_of_list_ascii l1 = string_of_list_ascii l2 → l1 = l2.
Proof.
  intros Heq.
  rewrite <- (list_ascii_of_string_of_list_ascii l1),
          <- (list_ascii_of_string_of_list_ascii l2).
  by rewrite Heq.
Qed.

(** When [rand.Read] succeeds, the ID is the string of the runes
    [idAlphabet[b & 63]] of the 21 bytes drawn, in order; the alphabet
    has no rune twice, so two draws give the same ID exactly when their
    bytes agree, position by position, in their six low bits: the ID
    carries 126 of the 168 random bits. *)
Theorem generateID_same_id_iff (r1 r2 : RandRead) :
  rr_err r1 = None → rr_err r2 = None →
  generateID r1 = Returned (string_of_list_ascii (id_rune <$> drawn r1)) ∧
  (generateID r1 = generateID r2 ↔
   Forall2 (λ b1 b2, Z.land (byte_to_Z b1) 63 = Z.land (byte_to_Z b2) 63)
           (drawn r1) (drawn r2)).
Proof.
  intros H1 H2. split; [by apply generateID_runes|].
  rewrite (generateID_runes r1 H1), (generateID_runes r2 H2).
  split.
  - intros [= Heq%string_of_list_ascii_inj].
    apply list_eq_Forall2 in Heq.
    apply (Forall2_fmap_1 id_rune id_rune eq) in Heq.
    eapply Forall2_impl; [exact Heq|].
    intros b1 b2. apply id_rune_inj.
  - intros Hall. do 2 f_equal.
    apply list_eq_Forall2, (Forall2_fmap_2 id_rune id_rune eq).
    eapply Forall2_impl; [exact Hall|].
    intros b1 b2. apply id_rune_inj.
Qed.

(** *** A scripted repository and updater

    An implementation of the two interfaces the client is written
    against, small enough to run the client on: the repository reports a
    fixed state and answers [Update] from a script, and the updater
    answers [ClientGetConfigs] from a list of prepared responses. *)

Module Scripted.

Record Repo : Type := mkRepo {
  repo_state : Result RepositoryState.t;
  repo_script : list (Result (list string));
  repo_debug : list string
}.

Definition empty_state : RepositoryState.t :=
  RepositoryState.mk [] [] 0 0 [].

#[export] Instance repo_api : RepositoryAPI Repo (list string) := {|
  NewRepository _ := Ok (mkRepo (Ok empty_state) [] []);
  NewUnverifiedRepository := Ok (mkRepo (Ok empty_state) [] []);
  CurrentState r := repo_state r;
  StateUpdate r u :=
    match repo_script r with
    | [] => (r, Ok [])
    | res :: script =>
        (mkRepo (repo_state r) script (Update.ClientConfigs u), res)
    end;
  GetDebugConfigs r := repo_debug r
|}.

#[export] Instance updater_api
  : ConfigUpdater (list (Result ClientGetConfigsResponse.t)) := {|
  ClientGetConfigs u _ :=
    match u with
    | [] => ([], Err (mkError "no response"))
    | res :: u' => (u', res)
    end
|}.

Definition ProductDebug : string := "DEBUG".

Definition a_state : RepositoryState.t :=
  {| RepositoryState.Configs :=
       [ConfigState.mk "DEBUG" "cfg-1" 7];
     RepositoryState.CachedFiles :=
       [CachedFile.mk "datadog/2/DEBUG/cfg-1/config" 3
          {["sha256" := [Byte.xde; Byte.xad; Byte.x0f]]}];
     RepositoryState.TargetsVersion := 5;
     RepositoryState.RootsVersion := 1;
     RepositoryState.OpaqueBackendState := [] |}.

Definition a_response : ClientGetConfigsResponse.t :=
  {| ClientGetConfigsResponse.Roots := [];
     ClientGetConfigsResponse.Targets := [];
     ClientGetConfigsResponse.TargetFiles :=
       Some [File.mk "datadog/2/DEBUG/cfg-1/config" [Byte.x7b; Byte.x7d]];
     ClientGetConfigsResponse.ClientConfigs :=
       ["datadog/2/DEBUG/cfg-1/config"] |}.

(** A client with two listeners, as [NewClient] and two [RegisterDebug]
    leave it, over a repository in state [st] whose next [Update] answers
    [res] and an updater whose next answer is [answer]. *)
Definition a_client (st : Result RepositoryState.t) (res : Result (list string))
  (answer : Result ClientGetConfigsResponse.t)
  : @Client Repo (list (Result ClientGetConfigsResponse.t)) nat :=
  {| ID := "aaaaaaaaaaaaaaaaaaaaa";
     startupSync := false;
     cancelled := false;
     agentName := "datadog-operator";
     agentVersion := "1.2.3";
     products := ["DEBUG"];
     clusterName := "";
     clusterID := "";
     cwsWorkloads := [];
     pollInterval := 10 * Second;
     lastUpdateError := None;
     updater := [answer];
     state := mkRepo st [res] [];
     debugListeners := [1%nat; 2%nat] |}.

Definition debug_client : Client :=
  a_client (Ok a_state) (Ok ["APM"; "DEBUG"]) (Ok a_response).

End Scripted.

Import Scripted.

(** *** The client run on the scripted interfaces *)

Example generateID_run :
  generateID (mkRandRead
    [Byte.x00; Byte.x01; Byte.x02; Byte.x3f; Byte.x40; Byte.x41; Byte.xff;
     Byte.x0a; Byte.x0b; Byte.x0c; Byte.x0d; Byte.x0e; Byte.x0f; Byte.x10;
     Byte.x11; Byte.x12; Byte.x13; Byte.x14; Byte.x15; Byte.x16; Byte.x17]
    None)
  = Returned "_-0Z_-Z89abcdefghijkl".
Proof. reflexivity. Qed.

Example generateID_panics :
  generateID (mkRandRead [] (Some (mkError "EOF"))) = Panicked "EOF".
Proof. reflexivity. Qed.

Example EncodeToString_run :
  EncodeToString [Byte.xde; Byte.xad; Byte.x0f] = "dead0f".
Proof. reflexivity. Qed.

Example Start_twice_run :
  (calls [CallStart; CallRegisterDebug 3%nat; CallStart; CallClose; CallStart]
     debug_client).2
  = [AGo; ALock; AReadListeners; AAppendListener 3%nat;
     ACallListener 3%nat []; AUnlock; ACancel].
Proof. reflexivity. Qed.

Example pollLoop_run :
  (pollLoop ProductDebug [TimerFired; TimerFired; CtxDone] debug_client).2
  = true ∧
  List.filter is_TimerFired
    (pollLoop ProductDebug [TimerFired; TimerFired; CtxDone] debug_client).1.2
  = [ASelect 5000000000 TimerFired; ASelect 5000000000 TimerFired] ∧
  List.filter is_StoreLastError
    (pollLoop ProductDebug [TimerFired; TimerFired; CtxDone] debug_client).1.2
  = [AStoreLastError None; AStoreLastError (Some (mkError "no response"))].
Proof. vm_compute. done. Qed.

Lemma update_notifies_witness :
  listener_calls (update ProductDebug debug_client).1.2 =
  [(1%nat, ["datadog/2/DEBUG/cfg-1/config"]);
   (2%nat, ["datadog/2/DEBUG/cfg-1/config"])].
Proof.
  destruct (update_notifies_iff_debug_changed ProductDebug debug_client)
    as [H _].
  rewrite H; [reflexivity|].
  eapply debug_changed_intro; [reflexivity..|]. right. left.
Defined.

(** A client whose repository rejects the next update. *)
Definition failing_client : Client :=
  a_client (Ok a_state) (Err (mkError "tuf: invalid signature")) (Ok a_response).

Lemma update_passes_error_through_witness :
  (update ProductDebug failing_client).2
  = Some (mkError "tuf: invalid signature") ∧
  listener_calls (update ProductDebug failing_client).1.2 = [].
Proof.
  destruct (update_passes_error_through ProductDebug failing_client
              (mkError "tuf: invalid signature")) as [[H1 _] H2].
  assert (failing_step failing_client (mkError "tuf: invalid signature"))
    as Hfails by (eapply fails_apply; reflexivity).
  split; [by apply H1 | by apply H2].
Defined.

Lemma newUpdateRequest_from_state_witness :
  ∃ req, newUpdateRequest debug_client = Ok req ∧
         ClientState.RootVersion
           (PbClient.State (ClientGetConfigsRequest.Client req)) = 1 ∧
         length (ClientGetConfigsRequest.CachedTargetFiles req) = 1%nat.
Proof.
  edestruct (newUpdateRequest_from_state debug_client a_state)
    as (req & Hreq & H); [reflexivity|].
  cbn zeta in H. destruct H as (_ & _ & Hroot & _ & _ & _ & _ & Hlen & _).
  exists req. split; [done|]. split; [|done].
  apply Hroot. cbn. lia.
Defined.

(** A client over a repository that reports the root version -1. *)
Definition negative_root_client : Client :=
  a_client (Ok (RepositoryState.mk [] [] 5 (-1) [])) (Ok []) (Ok a_response).

(** C3 as stated fails on the code: [uint64(state.RootsVersion)] of the
    signed root version -1 is 18446744073709551615, so the request's
    [RootVersion] is not the state's [RootsVersion]. *)
Lemma newUpdateRequest_root_version_not_equal :
  ∃ st req,
    CurrentState (state negative_root_client) = Ok st ∧
    newUpdateRequest negative_root_client = Ok req ∧
    RepositoryState.RootsVersion st = -1 ∧
    ClientState.RootVersion
      (PbClient.State (ClientGetConfigsRequest.Client req))
    = 18446744073709551615 ∧
    ClientState.RootVersion
      (PbClient.State (ClientGetConfigsRequest.Client req))
    ≠ RepositoryState.RootsVersion st.
Proof.
  eexists _, _. split; [reflexivity|]. split; [reflexivity|].
  split; [reflexivity|]. split; [reflexivity|]. cbn. done.
Qed.

Lemma listeners_guarded_witness :
  ¬ race (mkConfig (Some 1%nat)
            [(update ProductDebug debug_client).1.2;
             [AReadListeners; AAppendListener 3%nat;
              ACallListener 3%nat []; AUnlock]]).
Proof.
  refine (proj2 (proj2 (proj2 (listeners_guarded_by_mutex ProductDebug
     [(update ProductDebug debug_client).1.2;
      (RegisterDebug 3%nat debug_client).2] _ _ _)))).
  - constructor; [apply thread_update|].
    constructor; [apply thread_RegisterDebug|constructor].
  - apply rtc_once.
    apply (step_lock
             (mkConfig None [(update ProductDebug debug_client).1.2;
                             (RegisterDebug 3%nat debug_client).2])
             1%nat
             [AReadListeners; AAppendListener 3%nat;
              ACallListener 3%nat []; AUnlock]); reflexivity.
Defined.



Lemma pollLoop_waits_five_seconds_witness :
  poll_trace ProductDebug
    (pollLoop ProductDebug [TimerFired; TimerFired; CtxDone] debug_client).1.2 ∧
  (pollLoop ProductDebug [TimerFired; TimerFired; CtxDone]
     (set_pollInterval debug_client (60 * Second))).1.2
  = (pollLoop ProductDebug [TimerFired; TimerFired; CtxDone] debug_client).1.2.
Proof.
  pose proof (pollLoop_waits_five_seconds ProductDebug
                [TimerFired; TimerFired; CtxDone] debug_client) as H.
  cbn zeta in H. destruct H as (Htrace & _ & _ & Hinterval & _).
  split; [exact Htrace | apply Hinterval].
Defined.

Lemma Start_starts_poll_loop_witness :
  Start (DebugConfigs := list string)
    (Start (DebugConfigs := list string) debug_client).1
  = ((Start (DebugConfigs := list string) debug_client).1, []) ∧
  (length (List.filter is_Go
             (calls [CallStart; CallStart; CallClose; CallStart]
                debug_client).2) ≤ 1)%nat.
Proof.
  pose proof (Start_starts_poll_loop_at_most_once ProductDebug
                [CallStart; CallStart; CallClose; CallStart] debug_client)
    as (Hcount & _).
  pose proof (Start_starts_poll_loop_at_most_once ProductDebug
                [] (Start (DebugConfigs := list string) debug_client).1)
    as (_ & _ & Hnoop & _).
  split; [apply Hnoop; reflexivity | exact Hcount].
Defined.

Lemma agentVersion_never_reported_witness :
  newUpdateRequest (set_agentVersion debug_client "7.50.0")
  = newUpdateRequest debug_client.
Proof.
  pose proof (agentVersion_never_reported ProductDebug [] debug_client "7.50.0")
    as (_ & H & _).
  exact H.
Defined.

Lemma generateID_witness :
  match generateID (mkRandRead (replicate 21 Byte.xff) None) with
  | Returned id => String.length id = 21%nat
  | Panicked _ => False
  end.
Proof.
  pose proof (generateID_21_chars_of_alphabet
                (mkRandRead (replicate 21 Byte.xff) None)) as (_ & _ & H).
  destruct (generateID _) as [id|msg].
  - apply H.
  - by destruct H as (e & He & _).
Defined.

(** Two draws that differ in the two high bits of every byte give the
    same ID. *)
Lemma generateID_same_id_witness :
  generateID (mkRandRead (replicate 21 Byte.xff) None) =
  generateID (mkRandRead (replicate 21 Byte.x3f) None).
Proof.
  destruct (generateID_same_id_iff
              (mkRandRead (replicate 21 Byte.xff) None)
              (mkRandRead (replicate 21 Byte.x3f) None)) as (_ & Hiff);
    [reflexivity | reflexivity |].
  apply Hiff. vm_compute. repeat constructor.
Defined.

Example generateID_high_bits_ignored :
  generateID (mkRandRead (replicate 21 Byte.xff) None) =
  Returned "ZZZZZZZZZZZZZZZZZZZZZ".
Proof. reflexivity. Qed.

(** A listener registered before an update that reports [ProductDebug]
    is invoked after the two registered earlier. *)
Lemma RegisterDebug_then_update_witness :
  listener_calls
    (update ProductDebug (RegisterDebug 3%nat debug_client).1).1.2 =
  [(1%nat, ["datadog/2/DEBUG/cfg-1/config"]);
   (2%nat, ["datadog/2/DEBUG/cfg-1/config"]);
   (3%nat, ["datadog/2/DEBUG/cfg-1/config"])].
Proof.
  destruct (RegisterDebug_then_update ProductDebug 3%nat debug_client)
    as (_ & _ & _ & H & _).
  cbn zeta in H. rewrite H; [reflexivity|].
  eapply debug_changed_intro; [reflexivity..|]. right. left.
Defined.

Example pollLoop_ignores_what_follows_the_cancellation :
  pollLoop ProductDebug [TimerFired; CtxDone; TimerFired; TimerFired]
    debug_client
  = pollLoop ProductDebug [TimerFired; CtxDone] debug_client.
Proof. reflexivity. Qed.

Example calls_register_in_order :
  debugListeners
    (calls [CallRegisterDebug 7%nat; CallStart; CallRegisterDebug 5%nat;
            CallClose] debug_client).1
  = [1%nat; 2%nat; 7%nat; 5%nat].
Proof. reflexivity. Qed.
End Remote.

(** ** Package [agentprofile] *)

Module AgentProfile.

(** *** Kubernetes types, as far as the package reads them *)

(** [v1.NodeSelectorOperator] is a string type. *)
Definition NodeSelectorOpIn : string := "In".
Definition NodeSelectorOpNotIn : string := "NotIn".
Definition NodeSelectorOpExists : string := "Exists".
Definition NodeSelectorOpDoesNotExist : string := "DoesNotExist".
Definition NodeSelectorOpGt : string := "Gt".
Definition NodeSelectorOpLt : string := "Lt".

(** [selection.Operator] is a string type too. *)
Definition selection_In : string := "in".
Definition selection_NotIn : string := "notin".
Definition selection_Exists : string := "exists".
Definition selection_DoesNotExist : string := "!".
Definition selection_GreaterThan : string := "gt".
Definition selection_LessThan : string := "lt".

Record NodeSelectorRequirement : Type := mkRequirement {
  Key : string;
  Operator : string;
  Values : list string
}.

(** [v1.Node]: its name and labels. *)
Record Node : Type := mkNode {
  NodeName : string;
  Labels : gmap string string
}.

(** [DatadogAgentProfile]: the metadata and the part of [Spec] that
    [ProfilesToApply] reads. [ProfileAffinity] is [None] for a nil
    pointer and holds its [ProfileNodeAffinity] otherwise;
    [CreationTimestamp] is an instant, counted from Go's zero time. *)
Record DatadogAgentProfile : Type := mkProfile {
  Name : string;
  Namespace : string;
  CreationTimestamp : Z;
  ProfileAffinity : option (list NodeSelectorRequirement)
}.

Definition defaultProfileName : string := "default".

(** [oppositeOperator] *)
Definition oppositeOperator (op : string) : string :=
  if decide (op = NodeSelectorOpIn) then NodeSelectorOpNotIn
  else if decide (op = NodeSelectorOpNotIn) then NodeSelectorOpIn
  else if decide (op = NodeSelectorOpExists) then NodeSelectorOpDoesNotExist
  else if decide (op = NodeSelectorOpDoesNotExist) then NodeSelectorOpExists
  else if decide (op = NodeSelectorOpGt) then NodeSelectorOpLt
  else if decide (op = NodeSelectorOpLt) then NodeSelectorOpGt
  else "".

(** [nodeSelectorOperatorToSelectionOperator] *)
Definition nodeSelectorOperatorToSelectionOperator (op : string) : string :=
  if decide (op = NodeSelectorOpIn) then selection_In
  else if decide (op = NodeSelectorOpNotIn) then selection_NotIn
  else if decide (op = NodeSelectorOpExists) then selection_Exists
  else if decide (op = NodeSelectorOpDoesNotExist) then selection_DoesNotExist
  else if decide (op = NodeSelectorOpGt) then selection_GreaterThan
  else if decide (op = NodeSelectorOpLt) then selection_LessThan
  else "".

(** [defaultProfile] *)
Definition defaultProfile (profiles : list DatadogAgentProfile)
  : DatadogAgentProfile :=
  let nodeSelectorRequirements :=
    foldl (λ acc profile,
             match ProfileAffinity profile with
             | Some affinity =>
                 foldl (λ acc r,
                          acc ++ [mkRequirement (Key r)
                                    (oppositeOperator (Operator r)) (Values r)])
                       acc affinity
             | None => acc
             end) [] profiles in
  {| Name := defaultProfileName;
     Namespace := "";
     CreationTimestamp := 0;
     ProfileAffinity :=
       if decide (0 < length nodeSelectorRequirements)%nat
       then Some nodeSelectorRequirements else None |}.

(** The [less] function of [sortProfiles]: by creation timestamp, then by
    name, compared as Go compares strings, byte by byte. *)
Definition profileLess (p q : DatadogAgentProfile) : bool :=
  if negb (CreationTimestamp p =? CreationTimestamp q)
  then CreationTimestamp p <? CreationTimestamp q
  else String.ltb (Name p) (Name q).

Section Profiles.

(** [labels.NewRequirement] and [Requirement.Matches] of
    [k8s.io/apimachinery], which validate and evaluate one requirement. *)
Context {Requirement : Type}.
Variable NewRequirement : string → string → list string → Result Requirement.
Variable Matches : Requirement → gmap string string → bool.

(** [sort.Slice]: not stable, so any sorting function may stand for it. *)
Variable sort_Slice : ∀ A : Type, (A → A → bool) → list A → list A.

(** [sortProfiles] *)
Definition sortProfiles (profiles : list DatadogAgentProfile)
  : list DatadogAgentProfile :=
  sort_Slice DatadogAgentProfile profileLess profiles.

(** The loop of [profileMatchesNode] over the requirements. *)
Fixpoint requirementsMatch (requirements : list NodeSelectorRequirement)
  (node : Node) : Result bool :=
  match requirements with
  | [] => Ok true
  | requirement :: rest =>
      match NewRequirement (Key requirement)
              (nodeSelectorOperatorToSelectionOperator (Operator requirement))
              (Values requirement) with
      | Err err => Err err
      | Ok selector =>
          if negb (Matches selector (Labels node)) then Ok false
          else requirementsMatch rest node
      end
  end.

(** [profileMatchesNode] *)
Definition profileMatchesNode (profile : DatadogAgentProfile) (node : Node)
  : Result bool :=
  match ProfileAffinity profile with
  | None => Ok true
  | Some affinity => requirementsMatch affinity node
  end.

(** [m[k]] on a [map[string]bool]: [false] for a missing key. *)
Definition lookup_bool (m : gmap string bool) (k : string) : bool :=
  default false (m !! k).

(** The inner loop of [ProfilesToApply] over the nodes, for one profile:
    an error, [None] when the loop breaks on a conflict, or the
    [nodesThatMatchProfile] it has built. *)
Fixpoint scanNodes (profile : DatadogAgentProfile) (nodes : list Node)
  (nodesWithProfilesApplied nodesThatMatchProfile : gmap string bool)
  : Result (option (gmap string bool)) :=
  match nodes with
  | [] => Ok (Some nodesThatMatchProfile)
  | node :: rest =>
      match profileMatchesNode profile node with
      | Err err => Err err
      | Ok matchesNode =>
          if matchesNode then
            if lookup_bool nodesWithProfilesApplied (NodeName node)
            then Ok None
            else scanNodes profile rest nodesWithProfilesApplied
                   (<[NodeName node := true]> nodesThatMatchProfile)
          else scanNodes profile rest nodesWithProfilesApplied
                 nodesThatMatchProfile
      end
  end.

(** [for node := range nodesThatMatchProfile { applied[node] = true }] *)
Definition markApplied (nodesWithProfilesApplied nodesThatMatchProfile
  : gmap string bool) : gmap string bool :=
  map_fold (λ node _ acc, <[node := true]> acc)
    nodesWithProfilesApplied nodesThatMatchProfile.

(** The outer loop of [ProfilesToApply] over the sorted profiles. *)
Fixpoint applyProfiles (sortedProfiles : list DatadogAgentProfile)
  (nodes : list Node) (nodesWithProfilesApplied : gmap string bool)
  (res : list DatadogAgentProfile) : Result (list DatadogAgentProfile) :=
  match sortedProfiles with
  | [] => Ok res
  | profile :: rest =>
      match scanNodes profile nodes nodesWithProfilesApplied ∅ with
      | Err err => Err err
      | Ok None => applyProfiles rest nodes nodesWithProfilesApplied res
      | Ok (Some nodesThatMatchProfile) =>
          applyProfiles rest nodes
            (markApplied nodesWithProfilesApplied nodesThatMatchProfile)
            (res ++ [profile])
      end
  end.

(** [ProfilesToApply] *)
Definition ProfilesToApply (profiles : list DatadogAgentProfile)
  (nodes : list Node) : Result (list DatadogAgentProfile) :=
  let nodesWithProfilesApplied :=
    foldl (λ m node, <[NodeName node := false]> m) ∅ nodes in
  let sortedProfiles := sortProfiles profiles in
  match applyProfiles sortedProfiles nodes nodesWithProfilesApplied [] with
  | Err err => Err err
  | Ok res => Ok (res ++ [defaultProfile res])
  end.

(** [profile] matches [node]: [profileMatchesNode] says so without error. *)
Definition matches (profile : DatadogAgentProfile) (node : Node) : Prop :=
  profileMatchesNode profile node = Ok true.

(** [p] has priority over [q], or as much: an earlier creation
    timestamp, or the same one and a name that is not alphabetically
    after [q]'s. *)
Definition has_priority (p q : DatadogAgentProfile) : Prop :=
  CreationTimestamp p < CreationTimestamp q ∨
  (CreationTimestamp p = CreationTimestamp q ∧
   String.ltb (Name q) (Name p) = false).

(** *** Properties of [ProfilesToApply] *)

Lemma lookup_bool_true (m : gmap string bool) (k : string) :
  lookup_bool m k = true ↔ m !! k = Some true.
Proof.
  unfold lookup_bool. destruct (m !! k) as [[]|]; cbn; split; congruence.
Qed.

Lemma markApplied_lookup (applied matched : gmap string bool) (k : string) :
  markApplied applied matched !! k =
  match matched !! k with Some _ => Some true | None => applied !! k end.
Proof.
  unfold markApplied. revert k.
  apply (map_fold_weak_ind
           (λ r (m : gmap string bool),
              ∀ k, r !! k = match m !! k with
                            | Some _ => Some true
                            | None => applied !! k
                            end)).
  - intros k. by rewrite lookup_empty.
  - intros i x m r Hi IH k. destruct (decide (i = k)) as [->|Hne].
    + by rewrite !lookup_insert_eq.
    + rewrite !lookup_insert_ne by done. apply IH.
Qed.

Lemma scanNodes_Some (profile : DatadogAgentProfile) (nodes : list Node)
  (applied : gmap string bool) :
  ∀ m0 m,
    scanNodes profile nodes applied m0 = Ok (Some m) →
    (∀ node, node ∈ nodes → matches profile node →
             lookup_bool applied (NodeName node) = false) ∧
    (∀ name, is_Some (m !! name) ↔
             is_Some (m0 !! name) ∨
             ∃ node, node ∈ nodes ∧ NodeName node = name ∧ matches profile node).
Proof.
  induction nodes as [|node nodes IH]; intros m0 m Hscan; cbn in Hscan.
  - injection Hscan as <-. split.
    + intros node Hin. by apply elem_of_nil in Hin.
    + intros name. split; [by left|].
      intros [?|(node & Hin & _)]; [done|]. by apply elem_of_nil in Hin.
  - destruct (profileMatchesNode profile node) as [[]|err] eqn:Hm; [| |done].
    + destruct (lookup_bool applied (NodeName node)) eqn:Hl; [done|].
      apply IH in Hscan as [Hfree Hdom]. split.
      * intros node' [->|Hin]%elem_of_cons Hmatch; [done|]. by apply Hfree.
      * intros name. rewrite Hdom. split.
        -- intros [Hins|(node' & Hin & Hname & Hmatch)].
           ++ destruct (decide (NodeName node = name)) as [Heq|Hne].
              ** right. exists node. split; [left|done].
              ** left. by rewrite lookup_insert_ne in Hins.
           ++ right. exists node'. split; [by right|done].
        -- intros [Hm0|(node' & Hin & Hname & Hmatch)].
           ++ left. destruct (decide (NodeName node = name)) as [->|Hne].
              ** by rewrite lookup_insert_eq.
              ** by rewrite lookup_insert_ne.
           ++ apply elem_of_cons in Hin as [->|Hin].
              ** left. rewrite Hname. by rewrite lookup_insert_eq.
              ** right. by exists node'.
    + apply IH in Hscan as [Hfree Hdom]. split.
      * intros node' [->|Hin]%elem_of_cons Hmatch.
        -- unfold matches in Hmatch. congruence.
        -- by apply Hfree.
      * intros name. rewrite Hdom. split.
        -- intros [?|(node' & Hin & Hname & Hmatch)]; [by left|].
           right. exists node'. split; [by right|done].
        -- intros [?|(node' & Hin & Hname & Hmatch)]; [by left|].
           apply elem_of_cons in Hin as [->|Hin].
           ++ unfold matches in Hmatch. congruence.
           ++ right. by exists node'.
Qed.

Lemma scanNodes_None (profile : DatadogAgentProfile) (nodes : list Node)
  (applied : gmap string bool) :
  ∀ m0,
    scanNodes profile nodes applied m0 = Ok None →
    ∃ node, node ∈ nodes ∧ matches profile node ∧
            lookup_bool applied (NodeName node) = true.
Proof.
  induction nodes as [|node nodes IH]; intros m0 Hscan; cbn in Hscan; [done|].
  destruct (profileMatchesNode profile node) as [[]|err] eqn:Hm; [| |done].
  - destruct (lookup_bool applied (NodeName node)) eqn:Hl.
    + exists node. split; [left|done].
    + apply IH in Hscan as (node' & Hin & H). exists node'.
      split; [by right|done].
  - apply IH in Hscan as (node' & Hin & H). exists node'.
    split; [by right|done].
Qed.

(** What the outer loop maintains: a node name is marked exactly when an
    accepted profile matches a node of that name, and no node is matched
    by two accepted profiles. *)
Definition marks_accepted (nodes : list Node) (applied : gmap string bool)
  (res : list DatadogAgentProfile) : Prop :=
  ∀ name, applied !! name = Some true ↔
          ∃ q node, q ∈ res ∧ node ∈ nodes ∧ NodeName node = name ∧
                    matches q node.

Definition conflict_free (nodes : list Node) (res : list DatadogAgentProfile)
  : Prop :=
  ∀ i j p q node,
    (i < j)%nat → res !! i = Some p → res !! j = Some q →
    node ∈ nodes → matches p node → matches q node → False.

Lemma applyProfiles_spec (nodes : list Node) (sorted : list DatadogAgentProfile) :
  ∀ applied res out,
    applyProfiles sorted nodes applied res = Ok out →
    marks_accepted nodes applied res →
    conflict_free nodes res →
    ∃ acc,
      out = res ++ acc ∧
      (∀ p, p ∈ acc → p ∈ sorted) ∧
      conflict_free nodes out ∧
      (∀ pre p post,
         sorted = pre ++ p :: post →
         p ∈ acc ∨
         ∃ q node node',
           (q ∈ res ∨ q ∈ pre) ∧ q ∈ out ∧
           node ∈ nodes ∧ node' ∈ nodes ∧ NodeName node' = NodeName node ∧
           matches p node ∧ matches q node').
Proof.
  induction sorted as [|profile sorted IH]; intros applied res out Hrun Hmarks Hfree;
    cbn in Hrun.
  - injection Hrun as <-. exists []. rewrite app_nil_r.
    split; [done|]. split; [intros p Hp; by apply elem_of_nil in Hp|].
    split; [done|]. intros pre p post Heq. by destruct pre.
  - destruct (scanNodes profile nodes applied ∅) as [[m|]|err] eqn:Hscan; [| |done].
    + (* accepted *)
      apply scanNodes_Some in Hscan as [Hunmarked Hdom].
      apply IH in Hrun as (acc & -> & Hsub & Hfree' & Hprio).
      * exists (profile :: acc). rewrite <- app_assoc in *. cbn in *.
        split; [done|]. split.
        { intros p [->|Hp]%elem_of_cons; [left|right; by apply Hsub]. }
        split; [done|].
        intros pre p post Heq. destruct pre as [|p0 pre]; cbn in Heq.
        { injection Heq as -> ->. left. left. }
        injection Heq as -> ->.
        destruct (Hprio pre p post eq_refl) as [Hin|(q & node & node' & Hq & H)].
        { left. by right. }
        right. exists q, node, node'. split; [|done].
        destruct Hq as [Hq|Hq]; [|by right; right].
        apply elem_of_app in Hq as [Hq|Hq]; [by left|].
        apply list_elem_of_singleton in Hq as ->. right. left.
      * (* the marks *)
        intros name. rewrite markApplied_lookup. split.
        -- destruct (m !! name) as [b|] eqn:Hm.
           ++ intros _. destruct (proj1 (Hdom name)) as [Hemp|(node & Hin & Hname & Hmatch)];
                [by eexists | by rewrite lookup_empty in Hemp; destruct Hemp |].
              exists profile, node. split; [|done].
              apply elem_of_app. right. left.
           ++ intros Happ. apply Hmarks in Happ as (q & node & Hq & H).
              exists q, node. split; [|done]. apply elem_of_app. by left.
        -- intros (q & node & Hq & Hin & Hname & Hmatch).
           apply elem_of_app in Hq as [Hq|Hq].
           ++ assert (applied !! name = Some true) as Happ.
              { apply Hmarks. by exists q, node. }
              rewrite Happ. by destruct (m !! name).
           ++ apply list_elem_of_singleton in Hq as ->.
              destruct (proj2 (Hdom name)) as [b Hb].
              { right. by exists node. }
              by rewrite Hb.
      * (* no conflict with the new profile *)
        intros i j p q node Hij Hi Hj Hin Hp Hq.
        destruct (decide (j < length res)%nat) as [Hlt|Hge].
        -- rewrite lookup_app_l in Hi by lia. rewrite lookup_app_l in Hj by done.
           by eapply (Hfree i j p q node).
        -- rewrite lookup_app_r in Hj by lia.
           destruct (j - length res)%nat as [|k] eqn:Hk; [|by destruct k].
           injection Hj as <-.
           rewrite lookup_app_l in Hi by lia.
           assert (applied !! NodeName node = Some true) as Happ.
           { apply Hmarks. exists p, node. split; [|done].
             by eapply list_elem_of_lookup_2. }
           apply lookup_bool_true in Happ.
           rewrite (Hunmarked node Hin Hq) in Happ. done.
    + (* rejected *)
      apply scanNodes_None in Hscan as (node & Hin & Hmatch & Hmarked).
      apply lookup_bool_true, Hmarks in Hmarked
        as (q & node' & Hq & Hin' & Hname & Hmatch').
      apply IH in Hrun as (acc & -> & Hsub & Hfree' & Hprio); [|done..].
      exists acc. split; [done|]. split.
      { intros p Hp. right. by apply Hsub. }
      split; [done|].
      intros pre p post Heq. destruct pre as [|p0 pre]; cbn in Heq.
      * injection Heq as -> ->. right. exists q, node, node'.
        split; [by left|]. split; [apply elem_of_app; by left|done].
      * injection Heq as -> ->.
        destruct (Hprio pre p post eq_refl) as [Hp|(q1 & n1 & n1' & Hq1 & H)];
          [by left|].
        right. exists q1, n1, n1'. split; [|done].
        destruct Hq1 as [?|?]; [by left|]. right. by right.
Qed.

Lemma nodes_unmarked (nodes : list Node) :
  ∀ (m : gmap string bool),
    (∀ k, m !! k ≠ Some true) →
    ∀ k, foldl (λ m node, <[NodeName node := false]> m) m nodes !! k
         ≠ Some true.
Proof.
  induction nodes as [|n l IHl]; intros m Hm k; cbn; [apply Hm|].
  apply IHl. intros k'. destruct (decide (NodeName n = k')) as [->|Hne].
  - by rewrite lookup_insert_eq.
  - rewrite lookup_insert_ne by done. apply Hm.
Qed.

Lemma profileLess_false_priority (p q : DatadogAgentProfile) :
  profileLess p q = false → has_priority q p.
Proof.
  unfold profileLess, has_priority.
  destruct (Z.eqb_spec (CreationTimestamp p) (CreationTimestamp q)) as [Heq|Hne];
    cbn.
  - intros H. right. by split.
  - intros H%Z.ltb_ge. left. lia.
Qed.

Lemma StronglySorted_split {A} (R : relation A) (pre : list A) x post :
  StronglySorted R (pre ++ x :: post) → ∀ y, y ∈ pre → R y x.
Proof.
  induction pre as [|z pre IH]; intros Hs y Hy; [by apply elem_of_nil in Hy|].
  cbn in Hs. apply StronglySorted_inv in Hs as [Hs Hall].
  apply elem_of_cons in Hy as [->|Hy]; [|by apply IH].
  rewrite Forall_forall in Hall. apply Hall.
  apply elem_of_app. right. left.
Qed.

Lemma defaultProfile_name (res : list DatadogAgentProfile) :
  Name (defaultProfile res) = "default".
Proof. reflexivity. Qed.

Lemma NoDup_names_eq (nodes : list Node) (n1 n2 : Node) :
  NoDup (NodeName <$> nodes) → n1 ∈ nodes → n2 ∈ nodes →
  NodeName n1 = NodeName n2 → n1 = n2.
Proof.
  intros Hnd [i Hi]%list_elem_of_lookup [j Hj]%list_elem_of_lookup Heq.
  assert (i = j) as ->; [|congruence].
  eapply NoDup_lookup; [exact Hnd| |].
  - rewrite list_lookup_fmap, Hi. reflexivity.
  - rewrite list_lookup_fmap, Hj. cbn. by rewrite Heq.
Qed.

(** C9. When [sort.Slice] has put the profiles in the order of
    [sortProfiles]' [less] and [ProfilesToApply] returns without error,
    the list returned is not empty and ends with the default profile,
    built from the profiles before it and named "default". The profiles
    before it come from the input and are free of conflicts: no node is
    matched by two of them. A profile of the input that is left out lost
    to a returned profile that has priority over it (an earlier creation
    timestamp, or the same timestamp and a name that is not
    alphabetically after its own) and matches a node of the same name as
    a node the profile matches, which is that very node when node names
    are unique. *)
Theorem ProfilesToApply_default_last_conflict_free
  (profiles : list DatadogAgentProfile) (nodes : list Node)
  (out : list DatadogAgentProfile) :
  sortProfiles profiles ≡ₚ profiles →
  StronglySorted (λ p q, profileLess q p = false) (sortProfiles profiles) →
  ProfilesToApply profiles nodes = Ok out →
  ∃ res,
    out = res ++ [defaultProfile res] ∧
    out ≠ [] ∧
    last out = Some (defaultProfile res) ∧
    Name (defaultProfile res) = "default" ∧
    (∀ p, p ∈ res → p ∈ profiles) ∧
    (∀ i j p q node,
       i ≠ j → res !! i = Some p → res !! j = Some q →
       node ∈ nodes → matches p node → matches q node → False) ∧
    (∀ p, p ∈ profiles → p ∉ res →
       ∃ q node node',
         q ∈ res ∧ has_priority q p ∧
         node ∈ nodes ∧ node' ∈ nodes ∧ NodeName node' = NodeName node ∧
         matches p node ∧ matches q node' ∧
         (NoDup (NodeName <$> nodes) → node' = node)).
Proof.
  intros Hperm Hsorted Hrun. unfold ProfilesToApply in Hrun.
  destruct (applyProfiles (sortProfiles profiles) nodes
              (foldl (λ m node, <[NodeName node := false]> m) ∅ nodes) [])
    as [res|err] eqn:Happly; [|done].
  injection Hrun as <-.
  apply applyProfiles_spec in Happly as (acc & Hout & Hsub & Hfree & Hprio).
  - cbn in Hout. subst acc. exists res.
    split; [done|]. split; [by destruct res|].
    split; [apply last_snoc|]. split; [done|]. split.
    { intros p Hp. rewrite <- Hperm. by apply Hsub. }
    split.
    { intros i j p q node Hne Hi Hj Hin Hp Hq.
      destruct (decide (i < j)%nat).
      - by eapply (Hfree i j p q node).
      - eapply (Hfree j i q p node); [lia|done..]. }
    intros p Hp Hnot. rewrite <- Hperm in Hp.
    apply list_elem_of_split in Hp as (pre & post & Hsplit).
    destruct (Hprio pre p post Hsplit)
      as [?|(q & node & node' & Hq & Hqres & Hin & Hin' & Hname & Hmp & Hmq)];
      [done|].
    destruct Hq as [Hq|Hq]; [by apply elem_of_nil in Hq|].
    exists q, node, node'. split; [done|]. split.
    { apply profileLess_false_priority.
      rewrite Hsplit in Hsorted.
      by apply (StronglySorted_split _ pre p post Hsorted q). }
    repeat (split; [done|]).
    intros Hnd. by eapply NoDup_names_eq.
  - intros name. split.
    + intros Hmarked. exfalso. revert Hmarked.
      apply nodes_unmarked. intros k. by rewrite lookup_empty.
    + intros (q & node & Hq & _). by apply elem_of_nil in Hq.
  - intros i j p q node _ Hi. by rewrite lookup_nil in Hi.
Qed.

(** *** Further properties of the package *)

Lemma scanNodes_total (profile : DatadogAgentProfile) (nodes : list Node)
  (applied : gmap string bool) :
  ∀ m0,
    (∀ node, node ∈ nodes → ∃ b, profileMatchesNode profile node = Ok b) →
    (∀ node, node ∈ nodes → matches profile node →
             lookup_bool applied (NodeName node) = false) →
    ∃ m, scanNodes profile nodes applied m0 = Ok (Some m).
Proof.
  induction nodes as [|node nodes IH]; intros m0 Hok Hfree; cbn.
  - by eexists.
  - destruct (Hok node) as [b Hb]; [left|]. rewrite Hb.
    assert (∀ m, ∃ m', scanNodes profile nodes applied m = Ok (Some m')) as Hrest.
    { intros m. apply IH.
      - intros n Hn. apply Hok. by right.
      - intros n Hn. apply Hfree. by right. }
    destruct b; [|apply Hrest].
    rewrite (Hfree node); [apply Hrest | left | done].
Qed.

Lemma applyProfiles_no_conflict (nodes : list Node)
  (sorted : list DatadogAgentProfile) :
  ∀ applied res,
    (∀ p node, p ∈ sorted → node ∈ nodes →
               ∃ b, profileMatchesNode p node = Ok b) →
    (∀ p node, p ∈ sorted → node ∈ nodes → matches p node →
               lookup_bool applied (NodeName node) = false) →
    (∀ i j p q n n',
       i ≠ j → sorted !! i = Some p → sorted !! j = Some q →
       n ∈ nodes → n' ∈ nodes → NodeName n = NodeName n' →
       matches p n → matches q n' → False) →
    applyProfiles sorted nodes applied res = Ok (res ++ sorted).
Proof.
  induction sorted as [|profile sorted IH]; intros applied res Hok Hfree Hpair;
    cbn.
  { by rewrite app_nil_r. }
  destruct (scanNodes_total profile nodes applied ∅) as [m Hscan].
  { intros node Hn. apply Hok; [left|done]. }
  { intros node Hn. apply Hfree; [left|done]. }
  rewrite Hscan. apply scanNodes_Some in Hscan as [_ Hdom].
  rewrite IH.
  - by rewrite <- app_assoc.
  - intros p node Hp. apply Hok. by right.
  - intros p node Hp Hn Hmatch.
    destruct (lookup_bool (markApplied applied m) (NodeName node)) eqn:Hl; [|done].
    exfalso. apply lookup_bool_true in Hl. rewrite markApplied_lookup in Hl.
    destruct (m !! NodeName node) as [b|] eqn:Hm.
    + destruct (proj1 (Hdom (NodeName node))) as [Hemp|(n' & Hn' & Hname & Hm')];
        [by eexists | by rewrite lookup_empty in Hemp; destruct Hemp |].
      apply list_elem_of_lookup in Hp as [j Hj].
      by apply (Hpair 0%nat (S j) profile p n' node).
    + apply lookup_bool_true in Hl.
      rewrite (Hfree p node) in Hl; [done | by right | done..].
  - intros i j p q n n' Hne Hi Hj.
    apply (Hpair (S i) (S j) p q n n'); [lia|done..].
Qed.

(** With profiles none of which conflicts with another (no two of them
    match nodes of the same name) and whose requirements are all valid,
    [ProfilesToApply] returns all the profiles, in the order of
    [sortProfiles], followed by the default profile. *)
Theorem ProfilesToApply_all_without_conflict
  (profiles : list DatadogAgentProfile) (nodes : list Node) :
  (∀ p node, p ∈ sortProfiles profiles → node ∈ nodes →
             ∃ b, profileMatchesNode p node = Ok b) →
  (∀ i j p q n n',
     i ≠ j →
     sortProfiles profiles !! i = Some p → sortProfiles profiles !! j = Some q →
     n ∈ nodes → n' ∈ nodes → NodeName n = NodeName n' →
     matches p n → matches q n' → False) →
  ProfilesToApply profiles nodes =
  Ok (sortProfiles profiles ++ [defaultProfile (sortProfiles profiles)]).
Proof.
  intros Hok Hpair. unfold ProfilesToApply.
  rewrite (applyProfiles_no_conflict nodes (sortProfiles profiles) _ []);
    [done | done | | done].
  intros p node _ _ _.
  destruct (lookup_bool _ (NodeName node)) eqn:Hl; [|done].
  exfalso. apply lookup_bool_true in Hl. revert Hl.
  apply nodes_unmarked. intros k. by rewrite lookup_empty.
Qed.


Definition opposite (r : NodeSelectorRequirement) : NodeSelectorRequirement :=
  mkRequirement (Key r) (oppositeOperator (Operator r)) (Values r).

Lemma foldl_opposite (affinity acc : list NodeSelectorRequirement) :
  foldl (λ acc r, acc ++ [mkRequirement (Key r)
                            (oppositeOperator (Operator r)) (Values r)])
        acc affinity
  = acc ++ map opposite affinity.
Proof.
  revert acc. induction affinity as [|r l IH]; intros acc; cbn.
  - by rewrite app_nil_r.
  - rewrite IH. by rewrite <- app_assoc.
Qed.

(** [defaultProfile] is named "default" and requires the opposite of
    every requirement of the profiles it is given, in their order: same
    key and values, opposite operator. It has no affinity when the
    profiles have no requirement. *)
Theorem defaultProfile_opposite_requirements
  (profiles : list DatadogAgentProfile) :
  let requirements :=
    concat (map (λ p, default [] (ProfileAffinity p)) profiles) in
  Name (defaultProfile profiles) = "default" ∧
  ProfileAffinity (defaultProfile profiles) =
    match requirements with
    | [] => None
    | _ :: _ => Some (map opposite requirements)
    end.
Proof.
  cbn zeta. split; [done|]. unfold defaultProfile. cbn [ProfileAffinity].
  assert (∀ acc,
            foldl (λ acc profile,
                     match ProfileAffinity profile with
                     | Some affinity =>
                         foldl (λ acc r,
                                  acc ++ [mkRequirement (Key r)
                                            (oppositeOperator (Operator r))
                                            (Values r)]) acc affinity
                     | None => acc
                     end) acc profiles
            = acc ++ map opposite
                       (concat (map (λ p, default [] (ProfileAffinity p))
                                    profiles))) as ->.
  { induction profiles as [|p l IH]; intros acc; cbn.
    - by rewrite app_nil_r.
    - rewrite IH. destruct (ProfileAffinity p) as [affinity|]; cbn.
      + by rewrite foldl_opposite, map_app, app_assoc.
      + done. }
  cbn [app].
  destruct (concat _) as [|r l]; cbn; [done|].
  destruct (decide _) as [_|Hn]; [done|]. exfalso. apply Hn. lia.
Qed.

(** With no profile, [ProfilesToApply] returns the default profile
    alone, without any affinity. *)
Theorem ProfilesToApply_no_profile (nodes : list Node) :
  sortProfiles [] ≡ₚ [] →
  ProfilesToApply [] nodes = Ok [mkProfile "default" "" 0 None].
Proof.
  intros Hperm. apply Permutation_nil_r in Hperm.
  unfold ProfilesToApply. by rewrite Hperm.
Qed.

(** *** The order of [sortProfiles] *)

Lemma ascii_compare_lt_trans (a b c : ascii) :
  Ascii.compare a b = Lt → Ascii.compare b c = Lt → Ascii.compare a c = Lt.
Proof.
  unfold Ascii.compare. rewrite !N.compare_lt_iff. lia.
Qed.

Lemma string_compare_refl (s : string) : String.compare s s = Eq.
Proof.
  induction s as [|a s IH]; [done|]. cbn.
  unfold Ascii.compare. by rewrite N.compare_refl.
Qed.

Lemma string_compare_lt_trans (s1 : string) :
  ∀ s2 s3, String.compare s1 s2 = Lt → String.compare s2 s3 = Lt →
           String.compare s1 s3 = Lt.
Proof.
  induction s1 as [|a s1 IH]; intros [|b s2] [|c s3]; cbn; try done.
  destruct (Ascii.compare a b) eqn:Hab; [|..].
  - apply Ascii.compare_eq_iff in Hab as ->.
    destruct (Ascii.compare b c); try done. apply IH.
  - destruct (Ascii.compare b c) eqn:Hbc.
    + apply Ascii.compare_eq_iff in Hbc as ->. by rewrite Hab.
    + by rewrite (ascii_compare_lt_trans a b c).
    + done.
  - done.
Qed.

Lemma string_ltb_lt (s1 s2 : string) :
  String.ltb s1 s2 = true ↔ String.compare s1 s2 = Lt.
Proof. unfold String.ltb. destruct (String.compare s1 s2); split; done. Qed.

Lemma string_ltb_total (s1 s2 : string) :
  String.ltb s1 s2 = false → String.ltb s2 s1 = false → s1 = s2.
Proof.
  unfold String.ltb. rewrite (String.compare_antisym s2 s1).
  destruct (String.compare s1 s2) eqn:Hc; cbn; try done.
  intros _ _. by apply String.compare_eq_iff.
Qed.

(** The [less] function [sortProfiles] gives [sort.Slice] is a strict
    weak order, as [sort.Slice] needs: it is irreflexive and transitive,
    never holds both ways, and two profiles neither of which is less than
    the other have the same creation timestamp and the same name. *)
Theorem profileLess_strict_weak_order (p q r : DatadogAgentProfile) :
  profileLess p p = false ∧
  (profileLess p q = true → profileLess q p = false) ∧
  (profileLess p q = true → profileLess q r = true → profileLess p r = true) ∧
  (profileLess p q = false ∧ profileLess q p = false ↔
   CreationTimestamp p = CreationTimestamp q ∧ Name p = Name q).
Proof.
  unfold profileLess.
  destruct (Z.eqb_spec (CreationTimestamp p) (CreationTimestamp p)) as [_|?];
    [|done].
  destruct (Z.eqb_spec (CreationTimestamp p) (CreationTimestamp q)) as [Hpq|Hpq];
    destruct (Z.eqb_spec (CreationTimestamp q) (CreationTimestamp p)) as [Hqp|Hqp];
    try congruence; cbn [negb].
  - (* same timestamp *)
    split.
    { unfold String.ltb. by rewrite string_compare_refl. }
    split.
    { rewrite string_ltb_lt. unfold String.ltb.
      rewrite (String.compare_antisym (Name q) (Name p)). by intros ->. }
    split.
    { destruct (Z.eqb_spec (CreationTimestamp q) (CreationTimestamp r)) as [Hqr|Hqr];
        destruct (Z.eqb_spec (CreationTimestamp p) (CreationTimestamp r)) as [Hpr|Hpr];
        try congruence; cbn [negb].
      - rewrite !string_ltb_lt. apply string_compare_lt_trans.
      - intros _. rewrite !Z.ltb_lt. lia. }
    split.
    + intros [H1 H2]. split; [done|]. by apply string_ltb_total.
    + intros [_ ->]. unfold String.ltb. by rewrite string_compare_refl.
  - (* different timestamps *)
    split.
    { unfold String.ltb. by rewrite string_compare_refl. }
    split.
    { rewrite Z.ltb_lt, Z.ltb_ge. lia. }
    split.
    { destruct (Z.eqb_spec (CreationTimestamp q) (CreationTimestamp r)) as [Hqr|Hqr];
        destruct (Z.eqb_spec (CreationTimestamp p) (CreationTimestamp r)) as [Hpr|Hpr];
        try congruence; cbn [negb]; rewrite ?Z.ltb_lt; lia. }
    split.
    + rewrite !Z.ltb_ge. lia.
    + intros [? _]. done.
Qed.

(** *** The component override of a profile *)




(** [v1.Affinity] down to the node selector terms, the fields
    [affinityOverride] fills; a nil pointer is [None]. *)
Record NodeSelectorTerm : Type := mkTerm {
  MatchExpressions : list NodeSelectorRequirement
}.

Record NodeSelector : Type := mkNodeSelector {
  NodeSelectorTerms : list NodeSelectorTerm
}.

Record NodeAffinity : Type := mkNodeAffinity {
  RequiredDuringSchedulingIgnoredDuringExecution : option NodeSelector
}.

Record Affinity : Type := mkAffinity {
  AffinityNodeAffinity : option NodeAffinity
}.

(** [affinityOverride] *)
Definition affinityOverride (profile : DatadogAgentProfile) : option Affinity :=
  match ProfileAffinity profile with
  | None => None
  | Some requirements =>
      if decide (length requirements = 0%nat) then None
      else
        Some {| AffinityNodeAffinity := Some {|
          RequiredDuringSchedulingIgnoredDuringExecution := Some {|
            NodeSelectorTerms := [ {| MatchExpressions := requirements |} ]
          |}
        |} |}
  end.







(** [affinityOverride] gives no affinity exactly when the profile has no
    requirement (a nil [ProfileAffinity] or an empty list); otherwise it
    gives a required node affinity with exactly one selector term, whose
    expressions are the profile's requirements in their order. *)
Theorem affinityOverride_single_term (profile : DatadogAgentProfile) :
  (affinityOverride profile = None ↔
   default [] (ProfileAffinity profile) = []) ∧
  (∀ affinity, affinityOverride profile = Some affinity →
     ∃ nodeAffinity selector,
       AffinityNodeAffinity affinity = Some nodeAffinity ∧
       RequiredDuringSchedulingIgnoredDuringExecution nodeAffinity
       = Some selector ∧
       NodeSelectorTerms selector
       = [mkTerm (default [] (ProfileAffinity profile))] ∧
       ProfileAffinity profile ≠ None).
Proof.
  unfold affinityOverride.
  destruct (ProfileAffinity profile) as [requirements|]; simpl.
  - destruct (decide (length requirements = 0%nat)) as [Hlen|Hlen].
    + apply length_zero_iff_nil in Hlen. subst. split; [done|]. by intros ?.
    + split.
      * split; [done|]. intros Heq. exfalso. apply Hlen. by rewrite Heq.
      * intros affinity [= <-]. by eexists _, _.
  - split; [done|]. by intros ?.
Qed.

(** *** How a profile's requirements decide a match *)

(** The requirement, built by [labels.NewRequirement], is valid and
    matches the node's labels. *)
Definition requirement_holds (r : NodeSelectorRequirement) (node : Node) : Prop :=
  ∃ selector,
    NewRequirement (Key r)
      (nodeSelectorOperatorToSelectionOperator (Operator r)) (Values r)
    = Ok selector ∧
    Matches selector (Labels node) = true.

Lemma requirementsMatch_true (requirements : list NodeSelectorRequirement)
  (node : Node) :
  requirementsMatch requirements node = Ok true ↔
  Forall (λ r, requirement_holds r node) requirements.
Proof.
  induction requirements as [|r rest IH]; cbn.
  - split; [constructor | done].
  - destruct (NewRequirement _ _ _) as [selector|err] eqn:Hnew.
    + destruct (Matches selector (Labels node)) eqn:Hm; cbn.
      * rewrite IH. split.
        -- intros H. constructor; [by exists selector | done].
        -- by intros [_ H]%Forall_cons.
      * split; [done|]. intros [(s & Hs & Hms) _]%Forall_cons.
        unfold requirement_holds in *. congruence.
    + split; [done|]. intros [(s & Hs & _) _]%Forall_cons. congruence.
Qed.

Lemma requirementsMatch_stops (requirements : list NodeSelectorRequirement)
  (node : Node) (res : Result bool) :
  res ≠ Ok true →
  (requirementsMatch requirements node = res ↔
   ∃ pre r post,
     requirements = pre ++ r :: post ∧
     Forall (λ r, requirement_holds r node) pre ∧
     match NewRequirement (Key r)
             (nodeSelectorOperatorToSelectionOperator (Operator r)) (Values r)
     with
     | Err err => res = Err err
     | Ok selector => Matches selector (Labels node) = false ∧ res = Ok false
     end).
Proof.
  intros Hres. induction requirements as [|r rest IH]; cbn.
  - split; [by intros <-|]. intros (pre & r & post & Heq & _). by destruct pre.
  - destruct (NewRequirement (Key r) _ (Values r)) as [selector|err] eqn:Hnew.
    + destruct (Matches selector (Labels node)) eqn:Hm; cbn.
      * rewrite IH. split.
        -- intros (pre & r' & post & -> & Hpre & Hlast).
           exists (r :: pre), r', post. split; [done|].
           split; [|done]. constructor; [by exists selector | done].
        -- intros (pre & r' & post & Heq & Hpre & Hlast).
           destruct pre as [|r0 pre]; cbn in Heq.
           ++ injection Heq as <- <-. rewrite Hnew in Hlast.
              destruct Hlast as [Hno _]. congruence.
           ++ injection Heq as <- ->. exists pre, r', post.
              split; [done|]. split; [|done]. by apply Forall_cons in Hpre as [_ ?].
      * split.
        -- intros <-. exists [], r, rest. split; [done|].
           split; [constructor|]. by rewrite Hnew.
        -- intros (pre & r' & post & Heq & Hpre & Hlast).
           destruct pre as [|r0 pre]; cbn in Heq.
           ++ injection Heq as <- <-. rewrite Hnew in Hlast. by destruct Hlast.
           ++ injection Heq as <- ->.
              apply Forall_cons in Hpre as [(s & Hs & Hms) _]. congruence.
    + split.
      * intros <-. exists [], r, rest. split; [done|].
        split; [constructor|]. by rewrite Hnew.
      * intros (pre & r' & post & Heq & Hpre & Hlast).
        destruct pre as [|r0 pre]; cbn in Heq.
        -- injection Heq as <- <-. by rewrite Hnew in Hlast.
        -- injection Heq as <- ->.
           apply Forall_cons in Hpre as [(s & Hs & _) _]. congruence.
Qed.

(** [profileMatchesNode] says a profile without [ProfileAffinity] matches
    every node. Otherwise the profile matches exactly when every
    requirement is valid and matches the node's labels; the answer is the
    one of the first requirement that is invalid or does not match, so
    the call fails exactly when an invalid requirement comes after
    requirements that all hold, and an invalid requirement behind one
    that does not match is not reported. *)
Theorem profileMatchesNode_first_failure_decides
  (profile : DatadogAgentProfile) (node : Node) :
  (ProfileAffinity profile = None → profileMatchesNode profile node = Ok true) ∧
  (∀ requirements,
     ProfileAffinity profile = Some requirements →
     (profileMatchesNode profile node = Ok true ↔
      Forall (λ r, requirement_holds r node) requirements) ∧
     (∀ err,
        profileMatchesNode profile node = Err err ↔
        ∃ pre r post,
          requirements = pre ++ r :: post ∧
          Forall (λ r, requirement_holds r node) pre ∧
          NewRequirement (Key r)
            (nodeSelectorOperatorToSelectionOperator (Operator r)) (Values r)
          = Err err) ∧
     (profileMatchesNode profile node = Ok false ↔
      ∃ pre r post selector,
        requirements = pre ++ r :: post ∧
        Forall (λ r, requirement_holds r node) pre ∧
        NewRequirement (Key r)
          (nodeSelectorOperatorToSelectionOperator (Operator r)) (Values r)
        = Ok selector ∧
        Matches selector (Labels node) = false)).
Proof.
  unfold profileMatchesNode. split.
  { by intros ->. }
  intros requirements ->. split; [apply requirementsMatch_true|]. split.
  - intros err. rewrite (requirementsMatch_stops _ _ (Err err)) by done.
    split.
    + intros (pre & r & post & Heq & Hpre & Hlast). exists pre, r, post.
      split; [done|]. split; [done|].
      destruct (NewRequirement _ _ _); [by destruct Hlast | congruence].
    + intros (pre & r & post & Heq & Hpre & Hlast). exists pre, r, post.
      split; [done|]. split; [done|]. by rewrite Hlast.
  - rewrite (requirementsMatch_stops _ _ (Ok false)) by done.
    split.
    + intros (pre & r & post & Heq & Hpre & Hlast).
      destruct (NewRequirement (Key r) _ (Values r)) as [selector|err] eqn:Hnew;
        [|done].
      exists pre, r, post, selector. by destruct Hlast.
    + intros (pre & r & post & selector & Heq & Hpre & Hnew & Hm).
      exists pre, r, post. split; [done|]. split; [done|]. by rewrite Hnew.
Qed.

(** *** What the default profile matches *)

Definition requirement_holdsb (r : NodeSelectorRequirement) (node : Node) : bool :=
  match NewRequirement (Key r)
          (nodeSelectorOperatorToSelectionOperator (Operator r)) (Values r) with
  | Ok selector => Matches selector (Labels node)
  | Err _ => false
  end.

Lemma requirement_holds_iff (r : NodeSelectorRequirement) (node : Node) :
  requirement_holds r node ↔ requirement_holdsb r node = true.
Proof.
  unfold requirement_holds, requirement_holdsb.
  destruct (NewRequirement _ _ _) as [selector|err]; split.
  - by intros (s & [= <-] & Hm).
  - intros Hm. by exists selector.
  - by intros (s & Hs & _).
  - done.
Qed.

(** The requirements of all the profiles, in order. *)
Definition allRequirements (profiles : list DatadogAgentProfile)
  : list NodeSelectorRequirement :=
  concat (map (λ p, default [] (ProfileAffinity p)) profiles).

Lemma defaultProfile_affinity (profiles : list DatadogAgentProfile) :
  ProfileAffinity (defaultProfile profiles) =
  match allRequirements profiles with
  | [] => None
  | _ :: _ => Some (map opposite (allRequirements profiles))
  end.
Proof.
  unfold defaultProfile, allRequirements. cbn [ProfileAffinity].
  assert (∀ acc,
            foldl (λ acc profile,
                     match ProfileAffinity profile with
                     | Some affinity =>
                         foldl (λ acc r,
                                  acc ++ [mkRequirement (Key r)
                                            (oppositeOperator (Operator r))
                                            (Values r)]) acc affinity
                     | None => acc
                     end) acc profiles
            = acc ++ map opposite
                       (concat (map (λ p, default [] (ProfileAffinity p))
                                    profiles))) as ->.
  { induction profiles as [|p l IH]; intros acc; cbn.
    - by rewrite app_nil_r.
    - rewrite IH. destruct (ProfileAffinity p) as [affinity|]; cbn.
      + by rewrite foldl_opposite, map_app, app_assoc.
      + done. }
  cbn [app].
  destruct (concat _) as [|r l]; cbn; [done|].
  destruct (decide _) as [_|Hn]; [done|]. exfalso. apply Hn. lia.
Qed.

Lemma matches_defaultProfile (profiles : list DatadogAgentProfile) (node : Node) :
  matches (defaultProfile profiles) node ↔
  ∀ r, r ∈ allRequirements profiles → requirement_holds (opposite r) node.
Proof.
  unfold matches, profileMatchesNode. rewrite defaultProfile_affinity.
  destruct (allRequirements profiles) as [|r0 l] eqn:Hreqs.
  - split; [|done]. intros _ r Hr. by apply elem_of_nil in Hr.
  - rewrite requirementsMatch_true, Forall_forall. split.
    + intros H r Hr. apply H. rewrite Remote.map_is_fmap. by apply list_elem_of_fmap_2.
    + intros H r' Hr'. rewrite Remote.map_is_fmap in Hr'.
      apply list_elem_of_fmap in Hr' as (r & -> & Hr). by apply H.
Qed.

Lemma elem_of_allRequirements (profiles : list DatadogAgentProfile) r :
  r ∈ allRequirements profiles ↔
  ∃ p requirements,
    p ∈ profiles ∧ ProfileAffinity p = Some requirements ∧ r ∈ requirements.
Proof.
  unfold allRequirements. induction profiles as [|p l IH]; simpl.
  - split; [by intros ?%elem_of_nil|]. by intros (p & ? & ?%elem_of_nil & _).
  - rewrite elem_of_app, IH. split.
    + intros [Hr|(q & reqs & Hq & Hreqs & Hr)].
      * destruct (ProfileAffinity p) as [reqs|] eqn:Hp; simpl in Hr.
        -- exists p, reqs. split; [left|done].
        -- by apply elem_of_nil in Hr.
      * exists q, reqs. split; [by right|done].
    + intros (q & reqs & Hq & Hreqs & Hr).
      apply elem_of_cons in Hq as [->|Hq].
      * left. by rewrite Hreqs.
      * right. by exists q, reqs.
Qed.

(** When, for every requirement of the profiles, the requirement with
    the opposite operator holds on the node exactly when the requirement
    itself does not, the default profile matches the node exactly when
    none of the profiles' requirements holds on it. So it matches no
    node that a profile with at least one requirement matches, and for
    profiles of exactly one requirement each it matches precisely the
    nodes that no profile matches. For profiles of several requirements
    it can leave out nodes no profile matches (a node on which one
    requirement of a profile holds and another does not), and profiles
    without any requirement, which match every node, do not keep the
    default profile from matching: when no profile has a requirement the
    default profile matches every node too. *)
Theorem defaultProfile_matches_where_no_requirement_holds
  (profiles : list DatadogAgentProfile) (node : Node) :
  (∀ r, r ∈ allRequirements profiles →
        (requirement_holds (opposite r) node ↔ ¬ requirement_holds r node)) →
  (matches (defaultProfile profiles) node ↔
   ∀ r, r ∈ allRequirements profiles → ¬ requirement_holds r node) ∧
  (matches (defaultProfile profiles) node →
   ∀ p, p ∈ profiles → default [] (ProfileAffinity p) ≠ [] →
        ¬ matches p node) ∧
  ((∀ p, p ∈ profiles → ∃ r, ProfileAffinity p = Some [r]) →
   (matches (defaultProfile profiles) node ↔
    ∀ p, p ∈ profiles → ¬ matches p node)) ∧
  (allRequirements profiles = [] →
   matches (defaultProfile profiles) node ∧
   ∀ p, p ∈ profiles → matches p node).
Proof.
  intros Hopp.
  assert (matches (defaultProfile profiles) node ↔
          ∀ r, r ∈ allRequirements profiles → ¬ requirement_holds r node)
    as Hdefault.
  { rewrite matches_defaultProfile. split; intros H r Hr.
    - apply Hopp; [done|]. by apply H.
    - apply Hopp; [done|]. by apply H. }
  split; [done|]. split; [|split].
  - intros Hd p Hp Hne Hmatch. rewrite Hdefault in Hd.
    destruct (ProfileAffinity p) as [[|r reqs]|] eqn:Haff; simpl in Hne;
      [done| |done].
    apply (Hd r).
    + apply elem_of_allRequirements. exists p, (r :: reqs).
      split; [done|]. split; [done|left].
    + unfold matches, profileMatchesNode in Hmatch. rewrite Haff in Hmatch.
      apply requirementsMatch_true in Hmatch.
      by apply Forall_cons in Hmatch as [? _].
  - intros Hone. rewrite Hdefault. split.
    + intros Hno p Hp Hmatch. destruct (Hone p Hp) as [r Hr].
      apply (Hno r).
      * apply elem_of_allRequirements. exists p, [r].
        split; [done|]. split; [done|left].
      * unfold matches, profileMatchesNode in Hmatch. rewrite Hr in Hmatch.
        apply requirementsMatch_true in Hmatch.
        by apply Forall_cons in Hmatch as [? _].
    + intros Hno r Hr Hholds.
      apply elem_of_allRequirements in Hr as (p & reqs & Hp & Haff & Hr).
      destruct (Hone p Hp) as [r' Hr']. rewrite Hr' in Haff.
      injection Haff as <-. apply list_elem_of_singleton in Hr as ->.
      apply (Hno p Hp). unfold matches, profileMatchesNode. rewrite Hr'.
      apply requirementsMatch_true. by repeat constructor.
  - intros Hnone. split.
    + apply Hdefault. rewrite Hnone. intros r Hr. by apply elem_of_nil in Hr.
    + intros p Hp. unfold matches, profileMatchesNode.
      destruct (ProfileAffinity p) as [reqs|] eqn:Haff; [|done].
      apply requirementsMatch_true, Forall_forall. intros r Hr. exfalso.
      assert (r ∈ allRequirements profiles) as Hin.
      { apply elem_of_allRequirements. by exists p, reqs. }
      rewrite Hnone in Hin. by apply elem_of_nil in Hin.
Qed.

(** *** [containersOverride] *)

Section ContainersOverride.

(** [corev1.ResourceRequirements], which the function only copies. *)
Context {ResourceRequirements : Type}.

(** [datadoghqv1alpha1.NodeAgentComponentName] and the container names
    of package [common]. *)
Variable NodeAgentComponentName : string.
Variable CoreAgentContainerName : string.
Variable TraceAgentContainerName : string.
Variable ProcessAgentContainerName : string.
Variable SecurityAgentContainerName : string.
Variable SystemProbeContainerName : string.

(** [profile.Spec.Config], as far as the function reads it: the
    overrides by component, each with its containers by name, each
    container with its resources. A nil map is an empty one. *)
Record Container : Type := mkContainer {
  Resources : option ResourceRequirements
}.

Record Override : Type := mkOverride {
  Containers : gmap string Container
}.

Record Config : Type := mkConfig {
  ConfigOverride : gmap string Override
}.

(** [v2alpha1.DatadogAgentGenericContainer]; the function sets its
    [Resources] and leaves every other field at its zero value. *)
Record DatadogAgentGenericContainer : Type := mkGenericContainer {
  GenericResources : option ResourceRequirements
}.

Definition containersInNodeAgent : list string :=
  [CoreAgentContainerName; TraceAgentContainerName; ProcessAgentContainerName;
   SecurityAgentContainerName; SystemProbeContainerName].

(** [containersOverride], on the [Spec.Config] of the profile. *)
Definition containersOverride (config : option Config)
  : option (gmap string DatadogAgentGenericContainer) :=
  match config with
  | None => None
  | Some config =>
      match ConfigOverride config !! NodeAgentComponentName with
      | None => None
      | Some nodeAgentOverride =>
          if decide (size (Containers nodeAgentOverride) = 0%nat) then None
          else
            Some (foldl
                    (λ res containerName,
                       match Containers nodeAgentOverride !! containerName with
                       | Some overrideForContainer =>
                           <[containerName :=
                               mkGenericContainer
                                 (Resources overrideForContainer)]> res
                       | None => res
                       end)
                    ∅ containersInNodeAgent)
      end
  end.

Lemma containers_foldl_lookup (containers : gmap string Container)
  (names : list string) (name : string) :
  ∀ acc : gmap string DatadogAgentGenericContainer,
    foldl (λ res containerName,
             match containers !! containerName with
             | Some overrideForContainer =>
                 <[containerName :=
                     mkGenericContainer (Resources overrideForContainer)]> res
             | None => res
             end) acc names !! name
    = if decide (name ∈ names)
      then match containers !! name with
           | Some c => Some (mkGenericContainer (Resources c))
           | None => acc !! name
           end
      else acc !! name.
Proof.
  induction names as [|n names IH]; intros acc; cbn.
  - rewrite decide_False; [done|]. by intros ?%elem_of_nil.
  - rewrite IH. destruct (decide (name ∈ names)) as [Hin|Hnot].
    + rewrite decide_True by (by right).
      destruct (containers !! name) as [c|] eqn:Hc; [done|].
      destruct (containers !! n) as [c'|] eqn:Hn; [|done].
      rewrite lookup_insert_ne; [done|]. congruence.
    + destruct (decide (n = name)) as [->|Hne].
      * rewrite decide_True by left.
        destruct (containers !! name) as [c|]; [|done].
        by rewrite lookup_insert_eq.
      * rewrite decide_False.
        2: { intros [?|?]%elem_of_cons; congruence. }
        destruct (containers !! n) as [c'|]; [|done].
        by rewrite lookup_insert_ne.
Qed.

(** [containersOverride] returns nil exactly when the profile has no
    config, no override for the node agent, or an override without
    containers. Otherwise it returns a map that has an entry for a
    container exactly when the container is one of the five containers of
    the node agent and the override defines it, and the entry carries the
    resources of the override and nothing else: overrides of any other
    container are dropped, and the map can be empty. *)
Theorem containersOverride_only_node_agent_containers (config : option Config) :
  (containersOverride config = None ↔
   config = None ∨
   ∃ cfg, config = Some cfg ∧
          match ConfigOverride cfg !! NodeAgentComponentName with
          | None => True
          | Some nodeAgentOverride => Containers nodeAgentOverride = ∅
          end) ∧
  (∀ res, containersOverride config = Some res →
     ∃ cfg nodeAgentOverride,
       config = Some cfg ∧
       ConfigOverride cfg !! NodeAgentComponentName = Some nodeAgentOverride ∧
       ∀ name,
         res !! name =
         if decide (name ∈ containersInNodeAgent)
         then (λ c, mkGenericContainer (Resources c))
                <$> Containers nodeAgentOverride !! name
         else None).
Proof.
  unfold containersOverride. destruct config as [cfg|].
  2: { split; [split; [by left|done]|done]. }
  destruct (ConfigOverride cfg !! NodeAgentComponentName) as [o|] eqn:Ho.
  2: { split; [|done]. split; [|done]. intros _. right. exists cfg.
       by rewrite Ho. }
  destruct (decide (size (Containers o) = 0%nat)) as [Hsize|Hsize].
  - split; [|done]. split; [|done]. intros _. right. exists cfg.
    rewrite Ho. split; [done|]. by apply map_size_empty_iff.
  - split.
    + split; [done|]. intros [?|(cfg' & [= <-] & H)]; [done|].
      rewrite Ho in H. exfalso. apply Hsize. by apply map_size_empty_iff.
    + intros res Hres. apply (inj Some) in Hres.
      exists cfg, o. split; [done|]. split; [done|].
      intros name. rewrite <- Hres, containers_foldl_lookup.
      destruct (decide (name ∈ containersInNodeAgent)); [|by rewrite lookup_empty].
      destruct (Containers o !! name); [done|]. by rewrite lookup_empty.
Qed.

End ContainersOverride.

End Profiles.

(** *** Label requirements and a sort to run the package on

    A model of [labels.NewRequirement] and [Requirement.Matches] that
    checks the number of values each operator takes and evaluates the
    requirement on a label set, and an insertion sort for [sort.Slice]. *)

Module Labels.

Record Requirement : Type := mkReq {
  key : string;
  operator : string;
  strValues : list string
}.

Definition digit (c : ascii) : option Z :=
  let n := Z.of_nat (nat_of_ascii c) in
  if decide (48 ≤ n ≤ 57) then Some (n - 48) else None.

Fixpoint parseDigits (acc : Z) (s : string) : option Z :=
  match s with
  | EmptyString => Some acc
  | String c s' =>
      match digit c with
      | Some d => parseDigits (10 * acc + d) s'
      | None => None
      end
  end.

(** [strconv.ParseInt(s, 10, 64)] *)
Definition ParseInt (s : string) : option Z :=
  let parsed :=
    match s with
    | EmptyString => None
    | String "-"%char (String c s') => Z.opp <$> parseDigits 0 (String c s')
    | String "+"%char (String c s') => parseDigits 0 (String c s')
    | _ => parseDigits 0 s
    end in
  match parsed with
  | Some n => if decide (- 2 ^ 63 ≤ n < 2 ^ 63) then Some n else None
  | None => None
  end.

Definition NewRequirement (k op : string) (vals : list string)
  : Result Requirement :=
  if decide (k = "") then Err (mkError "name part must be non-empty")
  else if decide (op = selection_In ∨ op = selection_NotIn) then
    if decide (length vals = 0%nat)
    then Err (mkError "for 'in', 'notin' operators, values set can't be empty")
    else Ok (mkReq k op vals)
  else if decide (op = selection_Exists ∨ op = selection_DoesNotExist) then
    if decide (length vals = 0%nat) then Ok (mkReq k op vals)
    else Err (mkError "values set must be empty for exists and does not exist")
  else if decide (op = selection_GreaterThan ∨ op = selection_LessThan) then
    match vals with
    | [v] =>
        match ParseInt v with
        | Some _ => Ok (mkReq k op vals)
        | None =>
            Err (mkError "for 'Gt', 'Lt' operators, the value must be an integer")
        end
    | _ => Err (mkError "for 'Gt', 'Lt' operators, exactly one value is required")
    end
  else Err (mkError "operator is not supported").

Definition hasValue (r : Requirement) (v : string) : bool :=
  bool_decide (v ∈ strValues r).

Definition Matches (r : Requirement) (ls : gmap string string) : bool :=
  if decide (operator r = selection_In) then
    match ls !! key r with Some v => hasValue r v | None => false end
  else if decide (operator r = selection_NotIn) then
    match ls !! key r with Some v => negb (hasValue r v) | None => true end
  else if decide (operator r = selection_Exists) then
    bool_decide (is_Some (ls !! key r))
  else if decide (operator r = selection_DoesNotExist) then
    negb (bool_decide (is_Some (ls !! key r)))
  else if decide (operator r = selection_GreaterThan
                  ∨ operator r = selection_LessThan) then
    match ls !! key r, strValues r with
    | Some v, [rv] =>
        match ParseInt v, ParseInt rv with
        | Some lsValue, Some rValue =>
            if decide (operator r = selection_GreaterThan)
            then bool_decide (rValue < lsValue)
            else bool_decide (lsValue < rValue)
        | _, _ => false
        end
    | _, _ => false
    end
  else false.

End Labels.

Fixpoint insert_by {A : Type} (less : A → A → bool) (x : A) (l : list A)
  : list A :=
  match l with
  | [] => [x]
  | y :: l' => if less x y then x :: y :: l' else y :: insert_by less x l'
  end.

Definition insertion_sort (A : Type) (less : A → A → bool) (l : list A)
  : list A :=
  foldr (insert_by less) [] l.

(** *** Three profiles on two nodes *)

Definition profile_gpu : DatadogAgentProfile :=
  mkProfile "gpu" "datadog" 100
    (Some [mkRequirement "kind" NodeSelectorOpIn ["gpu"]]).

Definition profile_alpha : DatadogAgentProfile :=
  mkProfile "alpha" "datadog" 200
    (Some [mkRequirement "zone" NodeSelectorOpExists []]).

Definition profile_big : DatadogAgentProfile :=
  mkProfile "big" "datadog" 200
    (Some [mkRequirement "size" NodeSelectorOpIn ["large"]]).

Definition node_1 : Node :=
  mkNode "node-1" {["kind" := "gpu"; "size" := "large"]}.

Definition node_2 : Node :=
  mkNode "node-2" {["size" := "small"; "zone" := "a"]}.

Definition apply_example : Result (list DatadogAgentProfile) :=
  ProfilesToApply Labels.NewRequirement Labels.Matches insertion_sort
    [profile_alpha; profile_gpu; profile_big] [node_1; node_2].

Example ProfilesToApply_run :
  apply_example =
  Ok [profile_gpu; profile_alpha;
      mkProfile "default" "" 0
        (Some [mkRequirement "kind" NodeSelectorOpNotIn ["gpu"];
               mkRequirement "zone" NodeSelectorOpDoesNotExist []])].
Proof. vm_compute. reflexivity. Qed.

Example ProfilesToApply_no_profiles :
  ProfilesToApply Labels.NewRequirement Labels.Matches insertion_sort
    [] [node_1; node_2]
  = Ok [mkProfile "default" "" 0 None].
Proof. vm_compute. reflexivity. Qed.

Example ProfilesToApply_error :
  ProfilesToApply Labels.NewRequirement Labels.Matches insertion_sort
    [mkProfile "bad" "datadog" 1 (Some [mkRequirement "kind" NodeSelectorOpIn []])]
    [node_1]
  = Err (mkError "for 'in', 'notin' operators, values set can't be empty").
Proof. vm_compute. reflexivity. Qed.

Lemma ProfilesToApply_witness :
  ∃ q, q ∈ [profile_gpu; profile_alpha] ∧ has_priority q profile_big ∧
       matches Labels.NewRequirement Labels.Matches q node_1 ∧
       matches Labels.NewRequirement Labels.Matches profile_big node_1.
Proof.
  destruct (ProfilesToApply_default_last_conflict_free
              Labels.NewRequirement Labels.Matches insertion_sort
              [profile_alpha; profile_gpu; profile_big] [node_1; node_2]
              [profile_gpu; profile_alpha;
               defaultProfile [profile_gpu; profile_alpha]])
    as (res & Hout & _ & _ & _ & _ & _ & Hprio).
  - apply perm_swap.
  - unfold sortProfiles. cbn. repeat constructor.
  - vm_compute. reflexivity.
  - change [profile_gpu; profile_alpha;
            defaultProfile [profile_gpu; profile_alpha]]
      with ([profile_gpu; profile_alpha] ++
            [defaultProfile [profile_gpu; profile_alpha]]) in Hout.
    apply app_inj_tail in Hout as [<- _].
    destruct (Hprio profile_big)
      as (q & node & node' & Hq & Hpri & Hin & Hin' & Hname & Hmp & Hmq & Huniq).
    + right. right. left.
    + intros H.
      apply elem_of_cons in H as [Heq|H]; [discriminate|].
      apply elem_of_cons in H as [Heq|H]; [discriminate|].
      by apply elem_of_nil in H.
    + exists q. split; [done|]. split; [done|].
      assert (node' = node) as ->.
      { apply Huniq. by apply (bool_decide_unpack _). }
      assert (node = node_1) as ->; [|done].
      apply elem_of_cons in Hin as [->|Hin]; [done|].
      apply elem_of_cons in Hin as [->|Hin]; [|by apply elem_of_nil in Hin].
      exfalso. revert Hmp. vm_compute. discriminate.
Defined.

Lemma ProfilesToApply_no_profile_witness :
  ProfilesToApply Labels.NewRequirement Labels.Matches insertion_sort
    [] [node_1; node_2]
  = Ok [mkProfile "default" "" 0 None].
Proof.
  apply (ProfilesToApply_no_profile Labels.NewRequirement Labels.Matches
           insertion_sort [node_1; node_2]).
  reflexivity.
Defined.

Lemma ProfilesToApply_all_without_conflict_witness :
  ProfilesToApply Labels.NewRequirement Labels.Matches insertion_sort
    [profile_alpha; profile_gpu] [node_1; node_2]
  = Ok [profile_gpu; profile_alpha;
        defaultProfile [profile_gpu; profile_alpha]].
Proof.
  apply (ProfilesToApply_all_without_conflict
           Labels.NewRequirement Labels.Matches insertion_sort
           [profile_alpha; profile_gpu] [node_1; node_2]).
  - intros p node Hp Hn.
    change (p ∈ [profile_gpu; profile_alpha]) in Hp.
    apply elem_of_cons in Hp as [->|Hp];
      [|apply elem_of_cons in Hp as [->|Hp]; [|by apply elem_of_nil in Hp]];
      (apply elem_of_cons in Hn as [->|Hn];
       [|apply elem_of_cons in Hn as [->|Hn]; [|by apply elem_of_nil in Hn]]);
      eexists; vm_compute; reflexivity.
  - intros i j p q n n' Hne Hi Hj Hn Hn' Hname Hp Hq.
    change (sortProfiles insertion_sort [profile_alpha; profile_gpu])
      with [profile_gpu; profile_alpha] in Hi, Hj.
    apply elem_of_cons in Hn as [->|Hn];
      [|apply elem_of_cons in Hn as [->|Hn]; [|by apply elem_of_nil in Hn]];
      (apply elem_of_cons in Hn' as [->|Hn'];
       [|apply elem_of_cons in Hn' as [->|Hn']; [|by apply elem_of_nil in Hn']]);
      try discriminate Hname;
      destruct i as [|[|i]]; try discriminate Hi; injection Hi as <-;
      destruct j as [|[|j]]; try discriminate Hj; injection Hj as <-;
      try done;
      first [ revert Hp; vm_compute; discriminate
            | revert Hq; vm_compute; discriminate ].
Defined.

(** *** The default profile on labelled nodes *)

Definition node_3 : Node := mkNode "node-3" {["size" := "small"]}.

Lemma defaultProfile_matches_witness :
  matches Labels.NewRequirement Labels.Matches
    (defaultProfile [profile_gpu; profile_alpha]) node_3 ∧
  ¬ matches Labels.NewRequirement Labels.Matches
      (defaultProfile [profile_gpu; profile_alpha]) node_1.
Proof.
  assert (∀ node, node = node_3 ∨ node = node_1 → ∀ r,
            r ∈ allRequirements [profile_gpu; profile_alpha] →
            requirement_holds Labels.NewRequirement Labels.Matches
              (opposite r) node
            ↔ ¬ requirement_holds Labels.NewRequirement Labels.Matches r node)
    as Hopp.
  { intros node Hnode r Hr. rewrite !requirement_holds_iff.
    change (r ∈ [mkRequirement "kind" NodeSelectorOpIn ["gpu"];
                 mkRequirement "zone" NodeSelectorOpExists []]) in Hr.
    apply elem_of_cons in Hr as [->|Hr];
      [|apply elem_of_cons in Hr as [->|Hr]; [|by apply elem_of_nil in Hr]];
      destruct Hnode as [->| ->]; vm_compute; split; congruence. }
  split.
  - destruct (defaultProfile_matches_where_no_requirement_holds
                Labels.NewRequirement Labels.Matches
                [profile_gpu; profile_alpha] node_3
                (Hopp node_3 (or_introl eq_refl))) as (Hiff & _).
    apply Hiff. intros r Hr.
    change (r ∈ [mkRequirement "kind" NodeSelectorOpIn ["gpu"];
                 mkRequirement "zone" NodeSelectorOpExists []]) in Hr.
    rewrite requirement_holds_iff.
    apply elem_of_cons in Hr as [->|Hr];
      [|apply elem_of_cons in Hr as [->|Hr]; [|by apply elem_of_nil in Hr]];
      vm_compute; discriminate.
  - intros Hd.
    destruct (defaultProfile_matches_where_no_requirement_holds
                Labels.NewRequirement Labels.Matches
                [profile_gpu; profile_alpha] node_1
                (Hopp node_1 (or_intror eq_refl)))
      as (_ & Hnone & _).
    apply (Hnone Hd profile_gpu); [left | done | by vm_compute].
Defined.

(** A profile of two requirements and a node on which only one of them
    holds: neither the profile nor the default profile matches it. *)
Definition profile_big_gpu : DatadogAgentProfile :=
  mkProfile "big-gpu" "datadog" 300
    (Some [mkRequirement "kind" NodeSelectorOpIn ["gpu"];
           mkRequirement "size" NodeSelectorOpIn ["large"]]).

Definition node_4 : Node :=
  mkNode "node-4" {["kind" := "gpu"; "size" := "small"]}.

Example node_without_profile :
  profileMatchesNode Labels.NewRequirement Labels.Matches profile_big_gpu node_4
  = Ok false ∧
  profileMatchesNode Labels.NewRequirement Labels.Matches
    (defaultProfile [profile_big_gpu]) node_4
  = Ok false.
Proof. by vm_compute. Qed.

(** A profile without requirements and the default profile built from
    it both match the node. *)
Example default_conflicts_with_unconstrained_profile :
  ProfilesToApply Labels.NewRequirement Labels.Matches insertion_sort
    [mkProfile "all" "datadog" 1 None] [node_1]
  = Ok [mkProfile "all" "datadog" 1 None; mkProfile "default" "" 0 None] ∧
  profileMatchesNode Labels.NewRequirement Labels.Matches
    (mkProfile "all" "datadog" 1 None) node_1 = Ok true ∧
  profileMatchesNode Labels.NewRequirement Labels.Matches
    (mkProfile "default" "" 0 None) node_1 = Ok true.
Proof. by vm_compute. Qed.


End AgentProfile.
